(** * A shallow embedding of the aspen emulator (ToyEmu)

    The development embeds, from the Rust sources of [aspen]:
    - [mmu/memory.rs]: the atomic 4 GiB byte region with its typed
      little-endian [read]/[write] and the inclusive [slice] helper;
    - [mmu.rs] / [memory.rs]: the page protection table, [check_prot]
      and [change_prot] (both files iterate the range identically);
    - [cpu.rs]: the register file ([Registers::set_reg]/[get_reg]) and
      [Cpu::process], the opcode-dispatched interpreter;
    - [emulator.rs]: the fetch-check-execute loop [Emulator::run].

    Machine words are [Z] with their wrap-around written out.  Byte
    memories are total functions [Z -> Z] (one byte per address).
    Integer overflow follows the release profile of Rust: [+=] and
    shifts wrap / mask, while division and remainder by zero (and the
    signed [i32::MIN % -1]) panic in every profile.  A Rust panic is the
    [RPanic] outcome. *)

From Stdlib Require Import ZArith Lia Bool.
From stdpp Require Import base list numbers.

Open Scope Z_scope.

(** ** Shared machinery *)

(** Outcome of a Rust function returning [Result<A, E>] that may also
    panic. *)
Inductive res (A E : Type) : Type :=
| ROk (a : A)
| RErr (e : E)
| RPanic.
Arguments ROk {A E} a.
Arguments RErr {A E} e.
Arguments RPanic {A E}.

Definition bind {A B E} (m : res A E) (f : A -> res B E) : res B E :=
  match m with
  | ROk a => f a
  | RErr e => RErr e
  | RPanic => RPanic
  end.

(** The [?] operator. *)
Notation "'let?' x ':=' m 'in' k" := (bind m (fun x => k))
  (at level 200, x pattern, m at level 100, k at level 200).

Definition map_err {A E F} (f : E -> F) (m : res A E) : res A F :=
  match m with
  | ROk a => ROk a
  | RErr e => RErr (f e)
  | RPanic => RPanic
  end.

(** [BitSize = u32]. *)
Definition BITS_MAX : Z := 2 ^ 32 - 1.

Definition checked_add (a b : Z) : option Z :=
  if a + b <=? BITS_MAX then Some (a + b) else None.

(** [u32::saturating_sub] *)
Definition saturating_sub (a b : Z) : Z := Z.max 0 (a - b).

Definition wrapping_add (a b : Z) : Z := (a + b) mod 2 ^ 32.
Definition wrapping_sub (a b : Z) : Z := (a - b) mod 2 ^ 32.

(** Functional update of a byte memory or a page table. *)
Definition upd (f : Z -> Z) (k v : Z) : Z -> Z :=
  fun x => if x =? k then v else f x.

(** ** Integer types and their byte representations *)

(** The unsigned instances of [ToBytes]/[FromBytes] ([u8] .. [u128]);
    the signed ones have the same sizes and the same bytes. *)
Inductive IntTy := U8 | U16 | U32 | U64 | U128.

Definition size_of (t : IntTy) : Z :=
  match t with U8 => 1 | U16 => 2 | U32 => 4 | U64 => 8 | U128 => 16 end.

(** [to_le_bytes] of an [n]-byte integer. *)
Fixpoint le_bytes (n : nat) (v : Z) : list Z :=
  match n with
  | O => []
  | S n' => Z.land v 255 :: le_bytes n' (Z.shiftr v 8)
  end.

(** [from_le_bytes]. *)
Fixpoint from_le_bytes (bs : list Z) : Z :=
  match bs with
  | [] => 0
  | b :: bs' => b + 256 * from_le_bytes bs'
  end.

(** [to_be_bytes] / [from_be_bytes] of a 4-byte word. *)
Definition be_bytes32 (v : Z) : list Z := rev (le_bytes 4 v).
Definition from_be_bytes (bs : list Z) : Z := from_le_bytes (rev bs).

(** [n] consecutive bytes of memory [m] from [addr]. *)
Fixpoint bytes_at (m : Z -> Z) (addr : Z) (n : nat) : list Z :=
  match n with
  | O => []
  | S n' => m addr :: bytes_at m (addr + 1) n'
  end.

(** ** Memory errors ([mmu.rs] [MemError]; the host-allocation
    variants are not reachable from the operations embedded here). *)
Inductive MemError :=
| PageFault (missing : Z)
| Overflow.

(** [Prot] bits. *)
Definition READ : Z := 1.
Definition WRITE : Z := 2.
Definition EXECUTE : Z := 4.
Definition ALL_PROT : Z := 7.

Definition PAGE_SIZE : Z := 4096.

(** ** [mmu/memory.rs]: the atomic byte region *)
Module AtomicMemory.

(** [Memory::slice]: start pointer and length of an inclusive
    [AddressRange]. *)
Definition slice (start end_ : Z) : Z * Z :=
  (start, saturating_sub end_ (saturating_sub start 1)).

(** [data.iter().zip(buf)] storing each byte. *)
Fixpoint store_zip (m : Z -> Z) (addr : Z) (len : nat) (buf : list Z)
  : Z -> Z :=
  match len, buf with
  | S len', b :: buf' => store_zip (upd m addr b) (addr + 1) len' buf'
  | _, _ => m
  end.

(** [N::copy_from_atomic_slice]: the default (zero) buffer of [n]
    bytes overwritten by the zip with the slice of length [len]. *)
Fixpoint load_zip (m : Z -> Z) (addr : Z) (len n : nat) : list Z :=
  match n with
  | O => []
  | S n' =>
      match len with
      | S len' => m addr :: load_zip m (addr + 1) len' n'
      | O => 0 :: load_zip m addr O n'
      end
  end.

(** [Memory::write] *)
Definition write (t : IntTy) (addr v : Z) (m : Z -> Z) : res (Z -> Z) MemError :=
  let buf := le_bytes (Z.to_nat (size_of t)) v in
  match checked_add addr (saturating_sub (size_of t) 1) with
  | None => RErr Overflow
  | Some end_ =>
      let '(start, len) := slice addr end_ in
      ROk (store_zip m start (Z.to_nat len) buf)
  end.

(** [Memory::read] *)
Definition read (t : IntTy) (addr : Z) (m : Z -> Z) : res Z MemError :=
  match checked_add addr (saturating_sub (size_of t) 1) with
  | None => RErr Overflow
  | Some end_ =>
      let '(start, len) := slice addr end_ in
      ROk (from_le_bytes (load_zip m start (Z.to_nat len) (Z.to_nat (size_of t))))
  end.

(** [Memory::memwrite]: store [buf] over [slice(addr..=addr + len - 1)];
    the length is a [usize] cast to [u32] ([as _]). *)
Definition memwrite (m : Z -> Z) (addr : Z) (buf : list Z) : res (Z -> Z) MemError :=
  match checked_add addr (saturating_sub (Z.of_nat (length buf)) 1 mod 2 ^ 32) with
  | None => RErr Overflow
  | Some end_ =>
      let '(start, len) := slice addr end_ in
      ROk (store_zip m start (Z.to_nat len) buf)
  end.

(** [data.iter().zip(buf)] loading each byte into [buf]; the elements of
    [buf] past the slice keep their value. *)
Fixpoint load_into (m : Z -> Z) (addr : Z) (len : nat) (buf : list Z) : list Z :=
  match len, buf with
  | S len', _ :: buf' => m addr :: load_into m (addr + 1) len' buf'
  | _, _ => buf
  end.

(** [Memory::memcpy]: on [x86_64] a [rep movsb] of [buf.len()] bytes from
    the start of the slice, elsewhere the zip above; the result is the
    new content of [buf]. *)
Definition memcpy (x86_64 : bool) (m : Z -> Z) (addr : Z) (buf : list Z)
  : res (list Z) MemError :=
  match checked_add addr (saturating_sub (Z.of_nat (length buf)) 1 mod 2 ^ 32) with
  | None => RErr Overflow
  | Some end_ =>
      let '(start, len) := slice addr end_ in
      ROk (if x86_64 then bytes_at m start (length buf) else load_into m start (Z.to_nat len) buf)
  end.

End AtomicMemory.

(** ** Page protection ([Mmu::check_prot], [Mmu::set_prot]; the
    [memory.rs] [check_prot]/[change_prot] are the same loops) *)
Module Prot.

Definition page_idx (addr : Z) : Z := addr / PAGE_SIZE.

(** [record.contains(req)] *)
Definition contains (record req : Z) : bool := Z.land record req =? req.

(** The body of [for addr in (start..=end).step_by(PAGE_SIZE)], run
    for [n] iterations from [addr]. *)
Fixpoint check_pages (pages : Z -> Z) (req addr : Z) (n : nat)
  : res unit MemError :=
  match n with
  | O => ROk tt
  | S n' =>
      let record := pages (page_idx addr) in
      if contains record req
      then check_pages pages req (addr + PAGE_SIZE) n'
      else RErr (PageFault (Z.land (Z.lxor record ALL_PROT) req))
  end.

(** Number of items of [(start..=end).step_by(PAGE_SIZE)]. *)
Definition steps (start end_ : Z) : nat :=
  if start <=? end_ then S (Z.to_nat ((end_ - start) / PAGE_SIZE)) else O.

Definition check_prot (pages : Z -> Z) (start end_ req : Z) : res unit MemError :=
  check_pages pages req start (steps start end_).

Fixpoint set_pages (pages : Z -> Z) (prot addr : Z) (n : nat) : Z -> Z :=
  match n with
  | O => pages
  | S n' => set_pages (upd pages (page_idx addr) prot) prot (addr + PAGE_SIZE) n'
  end.

Definition set_prot (pages : Z -> Z) (start end_ prot : Z) : Z -> Z :=
  set_pages pages prot start (steps start end_).

End Prot.

(** ** [cpu.rs]: registers *)

(** [RegError(u8)] *)
Inductive RegError := InvalidReg (r : Z).

(** [Registers], as the 32-word array [Registers::array] views it:
    index 0 is [zr], 1 [ra], 2 [sp], ... *)
Abbreviation Registers := (list Z) (only parsing).

Definition REG_ZR : Z := 0.
Definition REG_RA : Z := 1.
Definition REG_SP : Z := 2.

(** [Registers::default]: every slot 0 except [sp = BitSize::MAX]. *)
Definition registers_default : Registers := <[2%nat := BITS_MAX]> (replicate 32 0).

(** [Registers::set_reg] *)
Definition set_reg (r : Registers) (reg val : Z) : res Registers RegError :=
  if reg =? 0 then ROk r
  else match r !! Z.to_nat reg with
       | Some _ => ROk (<[Z.to_nat reg := val]> r)
       | None => RErr (InvalidReg reg)
       end.

(** [Registers::get_reg] *)
Definition get_reg (r : Registers) (reg : Z) : res Z RegError :=
  match r !! Z.to_nat reg with
  | Some v => ROk v
  | None => RErr (InvalidReg reg)
  end.

(** Direct field accesses [self.gp.sp] and [self.gp.ra]. *)
Definition field (r : Registers) (i : nat) : Z := default 0 (r !! i).
Definition sp (r : Registers) : Z := field r 2.
Definition ra (r : Registers) : Z := field r 1.

(** u32 / i32 casts. *)
Definition MASK32 : Z := 2 ^ 32 - 1.
Definition as_u32 (v : Z) : Z := v mod 2 ^ 32.
Definition as_i32 (v : Z) : Z := if v <? 2 ^ 31 then v else v - 2 ^ 32.

(** The [IntoRange] impls of [memory.rs] (the [From] impls of
    [mmu/address_range.rs] are the same): the inclusive bounds
    [(start, end)] of an address argument. *)
Module IntoRange.
(** [u32]: the single address. *)
Definition of_u32 (x : Z) : Z * Z := (x, x).
(** [start..end] *)
Definition of_range (start end_ : Z) : Z * Z := (start, saturating_sub end_ 1).
(** [..end] *)
Definition of_range_to (end_ : Z) : Z * Z := (0, saturating_sub end_ 1).
End IntoRange.

(** [memory.rs] [MemError]: [InvalidAddr(size, addr)] and the
    [PageFault] / [Overflow] variants it shares with [mmu.rs]. *)
Inductive MemoryError :=
| InvalidAddr (size addr : Z)
| Shared (e : MemError).

(** [memory.rs] [Memory]: the byte array behind [Index]/[IndexMut]
    (which [cpu.rs] and [emulator.rs] use) and the page table. *)
Module Memory.
Record t := mk { data : Z -> Z; pages : Z -> Z }.

(** [copy_from_slice] of [bs] at [addr]. *)
Fixpoint store_bytes (m : Z -> Z) (addr : Z) (bs : list Z) : Z -> Z :=
  match bs with
  | [] => m
  | b :: bs' => store_bytes (upd m addr b) (addr + 1) bs'
  end.

Definition with_data (m : t) (d : Z -> Z) : t := mk d (pages m).

(** [Memory::check_prot] and [Memory::change_prot]: the loops of
    [Prot] over the inclusive range. *)
Definition check_prot (m : t) (r : Z * Z) (req : Z) : res unit MemoryError :=
  map_err Shared (Prot.check_prot (pages m) (fst r) (snd r) req).

Definition change_prot (m : t) (r : Z * Z) (req : Z) : res t MemoryError :=
  ROk (mk (data m) (Prot.set_prot (pages m) (fst r) (snd r) req)).

(** [Memory::validate_addr] *)
Definition validate_addr (m : t) (size addr prot : Z) : res unit MemoryError :=
  if size =? 0 then ROk tt
  else match checked_add addr size with
       | None => RErr (InvalidAddr size addr)
       | Some _ => check_prot m (IntoRange.of_range addr addr) prot
       end.

(** [Memory::write]: [to_be_bytes] into [data[addr..addr + N]]. *)
Definition write (ty : IntTy) (addr v : Z) (m : t) : res t MemoryError :=
  let? _ := validate_addr m (size_of ty) addr WRITE in
  ROk (with_data m (store_bytes (data m) addr (rev (le_bytes (Z.to_nat (size_of ty)) v)))).

(** [Memory::read]: [from_be_bytes] of [self[addr..addr + N]]. *)
Definition read (ty : IntTy) (addr : Z) (m : t) : res Z MemoryError :=
  let? _ := validate_addr m (size_of ty) addr READ in
  ROk (from_be_bytes (bytes_at (data m) addr (Z.to_nat (size_of ty)))).
End Memory.

(** The decoded instruction as [cpu.rs] matches on it:
    [(inst.mode, inst.dst, inst.op_code, inst.a, inst.b, inst.imm)]. *)
Module Instruction.
Record t := mk {
  mode : Z; dst : Z; op_code : Z; a : Z; b : Z; imm : option Z
}.
End Instruction.

(** [CpuError] *)
Inductive CpuError :=
| Reg (e : RegError)
| UnsupportedInst (i : Instruction.t).

Module Cpu.

Record t := mk { gp : Registers; gfx : Z; pc : Z; clk : Z }.

Definition with_gp (c : t) (r : Registers) : t := mk r (gfx c) (pc c) (clk c).
Definition with_gfx (c : t) (g : Z) : t := mk (gp c) g (pc c) (clk c).
Definition with_pc (c : t) (p : Z) : t := mk (gp c) (gfx c) p (clk c).

(** [Cpu::default] *)
Definition new : t := mk registers_default 0 0 0.

Definition get (r : Registers) (x : Z) : res Z CpuError := map_err Reg (get_reg r x).
Definition set (r : Registers) (x v : Z) : res Registers CpuError :=
  map_err Reg (set_reg r x v).

(** [match imm { Some(i) => i, None => self.gp.get_reg(x)? }] *)
Definition imm_or (r : Registers) (imm : option Z) (x : Z) : res Z CpuError :=
  match imm with Some i => ROk i | None => get r x end.

(** Whether a match arm ended in [return Ok(())] or falls through to
    the [pc] advance at the end of [process]. *)
Inductive flow := Continue | Return.

(** The state threaded through an arm: CPU, memory, [stop], [clk]. *)
Definition st : Type := t * Memory.t * bool * Z.

(** Mode-1 arms reading [a] and [b | imm]: [dst <- f(a, b)]. *)
Definition alu (c : t) (i : Instruction.t) (f : Z -> Z -> res Z CpuError)
  : res Registers CpuError :=
  let? va := get (gp c) (Instruction.a i) in
  let? vb := imm_or (gp c) (Instruction.imm i) (Instruction.b i) in
  let? v := f va vb in
  set (gp c) (Instruction.dst i) v.

(** The mode-1 operations with two operands. *)
Definition binop (op : Z) : option (Z -> Z -> res Z CpuError) :=
  match op with
  | 0 => Some (fun a b => ROk (Z.lxor (Z.land a b) MASK32))
  | 1 => Some (fun a b => ROk (Z.lor a b))
  | 2 => Some (fun a b => ROk (Z.land a b))
  | 3 => Some (fun a b => ROk (Z.lxor (Z.lor a b) MASK32))
  | 4 => Some (fun a b => ROk (wrapping_add a b))
  | 5 => Some (fun a b => ROk (wrapping_sub a b))
  | 6 => Some (fun a b => ROk (Z.lxor a b))
  | 7 => Some (fun a b => ROk (Z.land (Z.shiftl a (Z.land b 31)) MASK32))
  | 8 => Some (fun a b => ROk (Z.shiftr a (Z.land b 31)))
  | 9 => Some (fun a b => ROk (as_u32 (a * b)))
  | 10 => Some (fun a b => ROk (as_u32 (as_i32 a * as_i32 b)))
  (* div: [if a != 0 { a.wrapping_div(b) } else { 0 }] *)
  | 11 => Some (fun a b =>
            if negb (a =? 0) then (if b =? 0 then RPanic else ROk (a / b))
            else ROk 0)
  (* idiv *)
  | 12 => Some (fun a b =>
            let a := as_i32 a in let b := as_i32 b in
            if negb (a =? 0) then (if b =? 0 then RPanic else ROk (as_u32 (Z.quot a b)))
            else ROk 0)
  (* rem: [a % b] *)
  | 13 => Some (fun a b => if b =? 0 then RPanic else ROk (a mod b))
  (* irem: [(a as i32) % (b as i32)] *)
  | 14 => Some (fun a b =>
            let a := as_i32 a in let b := as_i32 b in
            if b =? 0 then RPanic
            else if (a =? - 2 ^ 31) && (b =? -1) then RPanic
            else ROk (as_u32 (Z.rem a b)))
  | 18 => Some (fun a b => ROk (if a =? b then 1 else 0))
  | 19 => Some (fun a b => ROk (if negb (a =? b) then 1 else 0))
  | 20 => Some (fun a b => ROk (if as_i32 a <? as_i32 b then 1 else 0))
  | 21 => Some (fun a b => ROk (if as_i32 a <=? as_i32 b then 1 else 0))
  | 22 => Some (fun a b => ROk (if as_i32 b <? as_i32 a then 1 else 0))
  | 23 => Some (fun a b => ROk (if as_i32 b <=? as_i32 a then 1 else 0))
  | 24 => Some (fun a b => ROk (as_u32 (Z.shiftr (as_i32 a) (Z.land b 31))))
  | _ => None
  end.

(** The predicates of the mode-2 conditional jumps [0x1..=0xa]:
    je, jne, jl, jge, jle, jg (signed), jb, jae, jbe, ja (unsigned). *)
Definition jump_cond (op : Z) : option (Z -> Z -> bool) :=
  match op with
  | 1 => Some (fun a b => a =? b)
  | 2 => Some (fun a b => negb (a =? b))
  | 3 => Some (fun a b => as_i32 a <? as_i32 b)
  | 4 => Some (fun a b => as_i32 b <=? as_i32 a)
  | 5 => Some (fun a b => as_i32 a <=? as_i32 b)
  | 6 => Some (fun a b => as_i32 b <? as_i32 a)
  | 7 => Some (fun a b => a <? b)
  | 8 => Some (fun a b => b <=? a)
  | 9 => Some (fun a b => a <=? b)
  | 10 => Some (fun a b => b <? a)
  | _ => None
  end.

Section Process.
(** [SystemTime::now()] as nanoseconds since the Unix epoch. *)
Variable now : Z.
(** Whether the [steady-clock] feature is compiled in. *)
Variable steady : bool.

(** [time.to_be_bytes()[k]] of the 128-bit timestamp. *)
Definition time_byte (k : Z) : Z := Z.land (Z.shiftr now (8 * (15 - k))) 255.

(** One arm of the big [match] of [Cpu::process]. *)
Definition arm (i : Instruction.t) (s : st) : res (st * flow) CpuError :=
  let '(c, m, stop, k) := s in
  let r := gp c in
  let imm := Instruction.imm i in
  let dst := Instruction.dst i in
  let a := Instruction.a i in
  let b := Instruction.b i in
  let unsupported := RErr (UnsupportedInst i) in
  let regs r' := ROk ((with_gp c r', m, stop, k), Continue) in
  match Instruction.mode i with
  | 0 =>
      match Instruction.op_code i, imm with
      (* nop *)
      | 0, None => ROk (s, Continue)
      (* hlt *)
      | 1, None => ROk ((c, m, true, k), Return)
      (* pr: [mem.view(low..high)] is [None] when low > high *)
      | 2, _ =>
          let? low := get r a in
          let? high := get r b in
          ROk (s, Continue)
      (* epr: [mem[low..high]] panics when low > high *)
      | 3, _ =>
          let? low := get r a in
          let? high := get r b in
          if high <? low then RPanic else ROk (s, Continue)
      (* time *)
      | 4, Some iv =>
          let c' := Z.land (Z.shiftr iv 24) 255 in
          let d' := Z.land (Z.shiftr iv 16) 255 in
          let av := from_be_bytes [time_byte 3; time_byte 2; time_byte 1; time_byte 0] in
          let bv := from_be_bytes [time_byte 7; time_byte 6; time_byte 5; time_byte 4] in
          let cv := from_be_bytes [time_byte 11; time_byte 10; time_byte 9; time_byte 8] in
          let dv := from_be_bytes [time_byte 15; time_byte 14; time_byte 13; time_byte 12] in
          let? r1 := set r a dv in
          let? r2 := set r1 b cv in
          let? r3 := set r2 c' bv in
          let? r4 := set r3 d' av in
          regs r4
      (* rdpc *)
      | 5, None => let? r' := set r dst (pc c) in regs r'
      (* kbrd: [unimplemented!()] *)
      | 6, None => RPanic
      (* setgfx *)
      | 7, _ =>
          let? g := imm_or r imm a in
          ROk ((with_gfx c g, m, stop, k), Continue)
      (* draw: [unimplemented!()] *)
      | 8, _ => RPanic
      (* slp *)
      | 9, _ =>
          let? val := match imm with
                      | Some iv => ROk iv
                      | None =>
                          let? vb := get r b in
                          let? va := get r a in
                          ROk (from_be_bytes (be_bytes32 va ++ be_bytes32 vb))
                      end in
          let k' := if steady && (0 <? val) then as_u32 ((Z.max val 5 + 4) / 5) else k in
          ROk ((c, m, stop, k'), Continue)
      (* rdclk *)
      | 10, _ =>
          let? r1 := set r a (Z.shiftr (clk c) 32) in
          let? r2 := set r1 b (Z.land (clk c) MASK32) in
          regs r2
      | _, _ => unsupported
      end
  | 1 =>
      match Instruction.op_code i with
      (* mov *)
      | 15 => let? v := imm_or r imm a in let? r' := set r dst v in regs r'
      (* inc *)
      | 16 => let? v := get r a in let? r' := set r dst (wrapping_add v 1) in regs r'
      (* dec *)
      | 17 => let? v := get r a in let? r' := set r dst (wrapping_sub v 1) in regs r'
      | op =>
          match binop op with
          | Some f => let? r' := alu c i f in regs r'
          | None => unsupported
          end
      end
  | 2 =>
      match Instruction.op_code i with
      (* jmp *)
      | 0 =>
          let? target := imm_or r imm dst in
          ROk ((with_pc c target, m, stop, k), Return)
      | op =>
          match jump_cond op with
          | Some p =>
              let? target := imm_or r imm dst in
              let? va := get r a in
              let? vb := get r b in
              if p va vb then ROk ((with_pc c target, m, stop, k), Return)
              else ROk (s, Continue)
          | None => unsupported
          end
      end
  | 3 =>
      match Instruction.op_code i with
      (* push *)
      | 0 =>
          let? va := get r a in
          let old_sp := sp r in
          let new_sp := wrapping_sub old_sp 4 in
          let r' := <[2%nat := new_sp]> r in
          (* [mem[sp..]] if sp wrapped, else [mem[sp..old_sp]];
             [copy_from_slice] panics unless the slice has 4 bytes *)
          let len := if old_sp <? new_sp then 2 ^ 32 - new_sp else old_sp - new_sp in
          if len =? 4
          then ROk ((with_gp c r',
                     Memory.with_data m (Memory.store_bytes (Memory.data m) new_sp (be_bytes32 va)),
                     stop, 2), Continue)
          else RPanic
      (* pop: [mem[sp..sp + 4]] panics when [sp + 4] overflows *)
      | 1 =>
          let s0 := sp r in
          if BITS_MAX <? s0 + 4 then RPanic
          else
            let v := from_be_bytes (bytes_at (Memory.data m) s0 4) in
            let r1 := <[2%nat := wrapping_add s0 4]> r in
            let? r2 := set r1 dst v in
            ROk ((with_gp c r2, m, stop, 2), Continue)
      (* call *)
      | 2 =>
          let old_sp := sp r in
          let new_sp := wrapping_sub old_sp 4 in
          let r1 := <[2%nat := new_sp]> r in
          if old_sp <? new_sp then RPanic
          else if negb (old_sp - new_sp =? 4) then RPanic
          else
            let m' := Memory.with_data m (Memory.store_bytes (Memory.data m) new_sp (be_bytes32 (ra r))) in
            let? jmp := imm_or r1 imm a in
            let r2 := <[1%nat := wrapping_add (pc c) (if imm then 8 else 4)]> r1 in
            ROk ((mk r2 (gfx c) jmp (clk c), m', stop, 3), Return)
      (* ret *)
      | 3 =>
          let s0 := sp r in
          if BITS_MAX <? s0 + 4 then RPanic
          else
            let v := from_be_bytes (bytes_at (Memory.data m) s0 4) in
            let r1 := <[2%nat := wrapping_add s0 4]> r in
            let r2 := <[1%nat := v]> r1 in
            ROk ((mk r2 (gfx c) (ra r) (clk c), m, stop, 2), Return)
      | _ => unsupported
      end
  | _ => unsupported
  end.

(** [Cpu::process]: the arm, then [self.pc += 8 or 4] unless the arm
    returned early. *)
Definition process (i : Instruction.t) (c : t) (m : Memory.t) (stop : bool) (k : Z)
  : res st CpuError :=
  bind (arm i (c, m, stop, k)) (fun '(s, fl) =>
  match fl with
  | Return => ROk s
  | Continue =>
      let '(c', m', stop', k') := s in
      ROk (with_pc c' (wrapping_add (pc c') (if Instruction.imm i then 8 else 4)),
           m', stop', k')
  end).
End Process.
End Cpu.

(** ** [emulator.rs]: the driver *)

(** [InstError]; [WrongSize] is the truncation error of the spec. *)
Inductive InstError :=
| UnknownInstruction (mode op_code : Z)
| WrongSize (n : Z).

(** [EmuError] *)
Inductive EmuError :=
| Mem (e : MemError)
| Inst (e : InstError)
| CpuErr (e : CpuError).

Module Decode.
(** Modelled from the spec: [Instruction::from_slice], which
    [Emulator::next_inst] calls on [mem[pc..]] and whose source is not
    part of the repository snapshot.  Following the spec's encoding
    section: the mode is the top two bits of byte 0, bit 5 is the
    has-immediate flag, the low five bits are [dst]; byte 1 is the
    opcode; bytes 2 and 3 carry [a] and [b] (masked to five bits);
    bytes 4..8 hold the little-endian immediate when the flag is set.
    Unassigned (mode, opcode) pairs fail with [UnknownInstruction], a
    truncated buffer with [WrongSize]. *)
Definition known (mode op : Z) : bool :=
  match mode with
  | 0 => (op <=? 10) || ((32 <=? op) && (op <=? 43))
  | 1 => op <=? 24
  | 2 => op <=? 10
  | 3 => op <=? 3
  | _ => false
  end.

Definition from_slice (m : Z -> Z) (start : Z) : res Instruction.t InstError :=
  let avail := 2 ^ 32 - start in
  if avail <? 4 then RErr (WrongSize avail)
  else
    let b0 := m start in
    let mode := Z.land (Z.shiftr b0 6) 3 in
    let has_imm := Z.testbit b0 5 in
    let op := m (start + 1) in
    if has_imm && (avail <? 8) then RErr (WrongSize avail)
    else if negb (known mode op) then RErr (UnknownInstruction mode op)
    else
      let imm := if has_imm then Some (from_le_bytes (bytes_at m (start + 4) 4)) else None in
      ROk (Instruction.mk mode (Z.land b0 31) op (Z.land (m (start + 2)) 31)
             (Z.land (m (start + 3)) 31) imm).
End Decode.

Module Emulator.
Record t := mk { cpu : Cpu.t; mem : Memory.t }.

Section Run.
(** [Emulator::next_inst]: fetch and decode at [pc]. *)
Variable next_inst : t -> res Instruction.t InstError.
(** [Cpu::process] (with its time source and clock feature fixed). *)
Variable exec : Instruction.t -> Cpu.t -> Memory.t -> bool -> Z -> res Cpu.st CpuError.

(** [Emulator::run], for at most [fuel] iterations of its loop;
    [None] when the fuel runs out, [Some (ROk e)] after [hlt]. *)
Fixpoint run (fuel : nat) (e : t) : option (res t EmuError) :=
  match fuel with
  | O => None
  | S fuel' =>
      let clk := 1 in
      match next_inst e with
      | RErr ie => Some (RErr (Inst ie))
      | RPanic => Some RPanic
      | ROk inst =>
          match Prot.check_prot (Memory.pages (mem e)) (Cpu.pc (cpu e))
                  (Cpu.pc (cpu e)) EXECUTE with
          | RErr me => Some (RErr (Mem me))
          | RPanic => Some RPanic
          | ROk _ =>
              match exec inst (cpu e) (mem e) false clk with
              | RErr ce => Some (RErr (CpuErr ce))
              | RPanic => Some RPanic
              | ROk (c', m', stop, k) =>
                  if stop then Some (ROk (mk c' m'))
                  else
                    run fuel'
                      (mk (Cpu.mk (Cpu.gp c') (Cpu.gfx c') (Cpu.pc c')
                             ((Cpu.clk c' + k) mod 2 ^ 64)) m')
              end
          end
      end
  end.
End Run.

(** [Emulator::next_inst]: [Instruction::from_slice(&mem[pc..])]. *)
Definition next_inst (e : t) : res Instruction.t InstError :=
  Decode.from_slice (Memory.data (mem e)) (Cpu.pc (cpu e)).

(** The driver as built: the decoder above and [Cpu::process]. *)
Definition run_emu (now : Z) (steady : bool) (fuel : nat) (e : t) :=
  run next_inst (Cpu.process now steady) fuel e.

(** [Memory::new]: every page [Read | Write], bytes zero. *)
Definition memory_new : Memory.t := Memory.mk (fun _ => 0) (fun _ => Z.lor READ WRITE).

(** [usize::next_multiple_of] *)
Definition next_multiple_of (a b : Z) : Z :=
  if a mod b =? 0 then a else a + (b - a mod b).

(** [Emulator::write_program]: [self.mem[..len as u32].copy_from_slice]
    (a panic when the cast truncates the length), then
    [change_prot(..size as u32, Execute | Read)] with the length rounded
    up to whole pages. *)
Definition write_program (mem : Memory.t) (program : list Z) : res Memory.t MemoryError :=
  let len := Z.of_nat (length program) in
  if negb (len mod 2 ^ 32 =? len) then RPanic
  else
    let mem1 := Memory.with_data mem (Memory.store_bytes (Memory.data mem) 0 program) in
    let size := next_multiple_of len PAGE_SIZE in
    let? mem2 := Memory.change_prot mem1 (IntoRange.of_range_to (size mod 2 ^ 32))
                   (Z.lor EXECUTE READ) in
    ROk mem2.
End Emulator.

(** [mmu.rs] [Mmu]: the page table (each [Page]'s mask) over the atomic
    memory of [mmu/memory.rs]. *)
Module Mmu.
Record t := mk { pages : Z -> Z; mem : Z -> Z }.

(** [Mmu::new]: every [Page::default()] holds the empty mask; the fresh
    anonymous mapping reads as zeros. *)
Definition new : t := mk (fun _ => 0) (fun _ => 0).

(** [Mmu::prot] *)
Definition prot (mmu : t) (addr : Z) : Z := pages mmu (Prot.page_idx addr).

(** [Mmu::set_prot] / [Mmu::check_prot] over an [AddressRange]. *)
Definition set_prot (mmu : t) (r : Z * Z) (p : Z) : t :=
  mk (Prot.set_prot (pages mmu) (fst r) (snd r) p) (mem mmu).

Definition check_prot (mmu : t) (r : Z * Z) (req : Z) : res unit MemError :=
  Prot.check_prot (pages mmu) (fst r) (snd r) req.

(** [Mmu::memcpy] / [Mmu::memwrite] *)
Definition memcpy (x86_64 : bool) (mmu : t) (addr : Z) (buf : list Z) : res (list Z) MemError :=
  AtomicMemory.memcpy x86_64 (mem mmu) addr buf.

Definition memwrite (mmu : t) (addr : Z) (buf : list Z) : res t MemError :=
  let? m' := AtomicMemory.memwrite (mem mmu) addr buf in ROk (mk (pages mmu) m').

(** [Mmu::read]: [check_prot(addr, Read)?] then the atomic read. *)
Definition read (ty : IntTy) (addr : Z) (mmu : t) : res Z MemError :=
  let? _ := check_prot mmu (IntoRange.of_u32 addr) READ in
  let? n := AtomicMemory.read ty addr (mem mmu) in
  ROk n.

(** [Mmu::write]: [check_prot(addr, Write)?] then the atomic write. *)
Definition write (ty : IntTy) (addr v : Z) (mmu : t) : res t MemError :=
  let? _ := check_prot mmu (IntoRange.of_u32 addr) WRITE in
  let? m' := AtomicMemory.write ty addr v (mem mmu) in
  ROk (mk (pages mmu) m').
End Mmu.

(** ** Auxiliary definitions for the statements *)

(** Byte [k] of the little-endian representation of [v]. *)
Definition le_byte (v k : Z) : Z := Z.land (Z.shiftr v (8 * k)) 255.

(** The instructions whose arm of [Cpu::process] ends in
    [return Ok(())] (or may): [hlt], the mode-2 jumps, [call], [ret]. *)
Definition writes_pc (i : Instruction.t) : bool :=
  let mode := Instruction.mode i in
  let op := Instruction.op_code i in
  ((mode =? 0) && (op =? 1)) || (mode =? 2) || ((mode =? 3) && ((op =? 2) || (op =? 3))).

(** [self.pc += if inst.imm.is_some() { 8 } else { 4 }] *)
Definition pc_next (c : Cpu.t) (i : Instruction.t) : Z :=
  wrapping_add (Cpu.pc c) (if Instruction.imm i then 8 else 4).

(** The register fields of an instruction are [u8]s. *)
Definition inst_regs_u8 (i : Instruction.t) : bool :=
  (0 <=? Instruction.dst i) && (Instruction.dst i <? 256) &&
  (0 <=? Instruction.a i) && (Instruction.a i <? 256) &&
  (0 <=? Instruction.b i) && (Instruction.b i <? 256).

(** A sequence of [set_reg] calls; a failing call returns before writing,
    so it leaves the register file unchanged. *)
Fixpoint set_regs (r : Registers) (ops : list (Z * Z)) : Registers :=
  match ops with
  | [] => r
  | (x, v) :: ops' =>
      match set_reg r x v with
      | ROk r' => set_regs r' ops'
      | _ => set_regs r ops'
      end
  end.

(** [push {reg}] and [pop {reg}] as decoded instructions. *)
Definition push_inst (r : Z) : Instruction.t := Instruction.mk 3 0 0 r 0 None.
Definition pop_inst (d : Z) : Instruction.t := Instruction.mk 3 d 1 0 0 None.

(** [Cpu::process] over a fixed instruction sequence, stopping at the
    first error. *)
Fixpoint exec_list (now : Z) (steady : bool) (is : list Instruction.t) (s : Cpu.st)
  : res Cpu.st CpuError :=
  match is with
  | [] => ROk s
  | i :: is' =>
      bind (let '(c, m, stop, k) := s in Cpu.process now steady i c m stop k)
        (exec_list now steady is')
  end.

(** The values that [push r_1], ..., [push r_k] store, starting from
    the register file [r]: each push reads its register, then lowers [sp]. *)
Fixpoint pushed (r : Registers) (rs : list Z) : list Z :=
  match rs with
  | [] => []
  | x :: rs' => field r (Z.to_nat x) :: pushed (<[2%nat := sp r - 4]> r) rs'
  end.

(** [call imm] and [ret] as the decoder delivers them. *)
Definition call_imm_inst (target : Z) : Instruction.t := Instruction.mk 3 0 2 0 0 (Some target).
Definition ret_inst : Instruction.t := Instruction.mk 3 0 3 0 0 None.

(** A memory holding [hlt] (bytes [00 01 00 00]) at address 0, every
    page [Execute | Read]. *)
Definition hlt_memory : Memory.t :=
  Memory.mk (Memory.store_bytes (fun _ => 0) 0 [0; 1; 0; 0]) (fun _ => Z.lor EXECUTE READ).

(** * Properties *)

(** ** Byte-level lemmas *)

Lemma le_bytes_length n v : length (le_bytes n v) = n.
Proof. revert v; induction n; intros v; simpl; auto. Qed.

Lemma nth_le_bytes n v k :
  (k < n)%nat -> nth k (le_bytes n v) 0 = le_byte v (Z.of_nat k).
Proof.
  unfold le_byte. revert v k; induction n as [|n IH]; intros v k Hk; [lia|].
  destruct k as [|k]; simpl.
  - now rewrite Z.shiftr_0_r.
  - rewrite IH by lia. rewrite Z.shiftr_shiftr by lia. f_equal. f_equal. lia.
Qed.

Lemma bytes_at_length m addr n : length (bytes_at m addr n) = n.
Proof. revert addr; induction n; intros; simpl; auto. Qed.

Lemma from_le_bytes_app_zeros l k :
  from_le_bytes (l ++ replicate k 0) = from_le_bytes l.
Proof.
  induction l as [|b l IH]; simpl.
  - induction k as [|k IHk]; simpl; auto. rewrite IHk. lia.
  - now rewrite IH.
Qed.

Lemma from_le_bytes_bound (l : list Z) :
  Forall (fun b => 0 <= b < 256) l ->
  0 <= from_le_bytes l < 2 ^ (8 * Z.of_nat (length l)).
Proof.
  induction 1 as [|b l Hb Hl IH]; simpl; [lia|].
  rewrite Nat2Z.inj_succ, Z.mul_succ_r, Z.pow_add_r by lia.
  change (2 ^ 8) with 256. nia.
Qed.

Lemma bytes_at_bound (m : Z -> Z) addr n :
  (forall x, 0 <= m x < 256) -> Forall (fun b => 0 <= b < 256) (bytes_at m addr n).
Proof. intros Hm. revert addr; induction n; intros; simpl; constructor; auto. Qed.

Module AtomicMemoryFacts.
Import AtomicMemory.

Lemma store_zip_spec len buf m addr x :
  store_zip m addr len buf x =
  if (addr <=? x) && (x <? addr + Z.of_nat (Nat.min len (length buf)))
  then nth (Z.to_nat (x - addr)) buf 0 else m x.
Proof.
  revert buf m addr; induction len as [|len IH]; intros buf m addr.
  - simpl. destruct (Z.leb_spec addr x), (Z.ltb_spec x (addr + Z.of_nat 0)); simpl; auto; lia.
  - destruct buf as [|b buf]; simpl.
    + destruct (Z.leb_spec addr x), (Z.ltb_spec x (addr + Z.of_nat 0)); simpl; auto; lia.
    + rewrite IH. unfold upd.
      destruct (Z.leb_spec (addr + 1) x), (Z.leb_spec addr x),
        (Z.ltb_spec x (addr + 1 + Z.of_nat (Nat.min len (length buf)))),
        (Z.ltb_spec x (addr + Z.of_nat (S (Nat.min len (length buf))))),
        (Z.eqb_spec x addr); simpl; try lia;
        try (subst; replace (Z.to_nat (addr - addr)) with 0%nat by lia; reflexivity);
        try (replace (Z.to_nat (x - addr)) with (S (Z.to_nat (x - (addr + 1)))) by lia;
             reflexivity);
        reflexivity.
Qed.

Lemma load_zip_spec m addr len n :
  load_zip m addr len n = bytes_at m addr (Nat.min len n) ++ replicate (n - len) 0.
Proof.
  revert addr len; induction n as [|n IH]; intros addr len.
  - destruct len; reflexivity.
  - destruct len as [|len]; simpl.
    + rewrite IH. simpl. now rewrite Nat.sub_0_r.
    + rewrite IH. reflexivity.
Qed.

Lemma store_zip_le m addr len n v x :
  (len <= n)%nat ->
  store_zip m addr len (le_bytes n v) x =
  if (addr <=? x) && (x <? addr + Z.of_nat len) then le_byte v (x - addr) else m x.
Proof.
  intros Hl. rewrite store_zip_spec, le_bytes_length.
  replace (Nat.min len n) with len by lia.
  destruct (Z.leb_spec addr x), (Z.ltb_spec x (addr + Z.of_nat len)); simpl; auto.
  rewrite nth_le_bytes by lia. f_equal. lia.
Qed.
End AtomicMemoryFacts.

Module AtomicMemoryProps.
Import AtomicMemory AtomicMemoryFacts.

Lemma size_of_range t : 1 <= size_of t <= 16.
Proof. destruct t; simpl; lia. Qed.

Lemma size_minus_one t : saturating_sub (size_of t) 1 = size_of t - 1.
Proof. unfold saturating_sub. pose proof (size_of_range t). lia. Qed.

(** The typed write, once the overflow check has passed. *)
Lemma write_ok t addr v m :
  addr + size_of t - 1 <= BITS_MAX ->
  write t addr v m =
  ROk (store_zip m addr
         (Z.to_nat (saturating_sub (addr + (size_of t - 1)) (saturating_sub addr 1)))
         (le_bytes (Z.to_nat (size_of t)) v)).
Proof.
  intros H. unfold write. rewrite size_minus_one. unfold checked_add.
  destruct (Z.leb_spec (addr + (size_of t - 1)) BITS_MAX); [reflexivity | lia].
Qed.

Lemma read_ok t addr m :
  addr + size_of t - 1 <= BITS_MAX ->
  read t addr m =
  ROk (from_le_bytes
         (load_zip m addr
            (Z.to_nat (saturating_sub (addr + (size_of t - 1)) (saturating_sub addr 1)))
            (Z.to_nat (size_of t)))).
Proof.
  intros H. unfold read. rewrite size_minus_one. unfold checked_add.
  destruct (Z.leb_spec (addr + (size_of t - 1)) BITS_MAX); [reflexivity | lia].
Qed.

(** The slice length: [N - 1] bytes at address 0, [N] bytes above. *)
Lemma slice_len_zero t :
  saturating_sub (0 + (size_of t - 1)) (saturating_sub 0 1) = size_of t - 1.
Proof. unfold saturating_sub. pose proof (size_of_range t). lia. Qed.

Lemma slice_len_pos t addr :
  1 <= addr ->
  saturating_sub (addr + (size_of t - 1)) (saturating_sub addr 1) = size_of t.
Proof. intros H. unfold saturating_sub. pose proof (size_of_range t). lia. Qed.
End AtomicMemoryProps.

(** ** Typed accesses of the atomic memory *)

(** Claim C10: in the atomic memory an [N]-byte access at address 0
    covers only [N - 1] bytes ([Memory::slice] computes the length as
    [end - (start - 1)] with saturating subtraction, so [start = 0]
    loses one byte): [write<N>(0, v)] stores the [N - 1] low bytes of
    [v] and leaves address [N - 1] unchanged, [read<N>(0)] returns the
    little-endian value of the bytes [0 .. N - 2] (its top byte is 0),
    while from every address [>= 1] (without overflow) all [N] bytes
    are stored and loaded. *)
Theorem atomic_access_at_zero_short (t : IntTy) (v : Z) (m : Z -> Z)
  (Hm : forall x, 0 <= m x < 256) :
  (exists m', AtomicMemory.write t 0 v m = ROk m' /\
     forall x, m' x = if (0 <=? x) && (x <? size_of t - 1) then le_byte v x else m x) /\
  (exists r, AtomicMemory.read t 0 m = ROk r /\
     r = from_le_bytes (bytes_at m 0 (Z.to_nat (size_of t - 1))) /\
     0 <= r < 2 ^ (8 * (size_of t - 1))) /\
  (forall addr, 1 <= addr -> addr + size_of t - 1 <= BITS_MAX ->
     (exists m', AtomicMemory.write t addr v m = ROk m' /\
        forall x, m' x = if (addr <=? x) && (x <? addr + size_of t)
                         then le_byte v (x - addr) else m x) /\
     AtomicMemory.read t addr m = ROk (from_le_bytes (bytes_at m addr (Z.to_nat (size_of t))))).
Proof.
  pose proof (AtomicMemoryProps.size_of_range t) as Ht.
  assert (Hmax : size_of t - 1 <= BITS_MAX) by (unfold BITS_MAX; lia).
  split; [|split].
  - rewrite AtomicMemoryProps.write_ok by lia.
    rewrite AtomicMemoryProps.slice_len_zero.
    eexists; split; [reflexivity|]. intros x.
    rewrite AtomicMemoryFacts.store_zip_le by lia.
    rewrite Z2Nat.id by lia. rewrite Z.sub_0_r, Z.add_0_l. reflexivity.
  - rewrite AtomicMemoryProps.read_ok by lia.
    rewrite AtomicMemoryProps.slice_len_zero.
    rewrite AtomicMemoryFacts.load_zip_spec, from_le_bytes_app_zeros.
    replace (Nat.min (Z.to_nat (size_of t - 1)) (Z.to_nat (size_of t)))
      with (Z.to_nat (size_of t - 1)) by lia.
    eexists; split; [reflexivity|]. split; [reflexivity|].
    pose proof (from_le_bytes_bound _ (bytes_at_bound m 0 (Z.to_nat (size_of t - 1)) Hm)) as Hb.
    rewrite bytes_at_length, Z2Nat.id in Hb by lia. exact Hb.
  - intros addr Ha Hov. split.
    + rewrite AtomicMemoryProps.write_ok by lia.
      rewrite AtomicMemoryProps.slice_len_pos by lia.
      eexists; split; [reflexivity|]. intros x.
      rewrite AtomicMemoryFacts.store_zip_le by lia.
      rewrite Z2Nat.id by lia. reflexivity.
    + rewrite AtomicMemoryProps.read_ok by lia.
      rewrite AtomicMemoryProps.slice_len_pos by lia.
      rewrite AtomicMemoryFacts.load_zip_spec, from_le_bytes_app_zeros.
      now rewrite Nat.min_id.
Qed.

Lemma atomic_access_at_zero_short_witness :
  (forall x, 0 <= (fun _ : Z => 0) x < 256) /\
  ((exists m', AtomicMemory.write U32 0 0x12345678 (fun _ => 0) = ROk m' /\
     forall x, m' x = if (0 <=? x) && (x <? size_of U32 - 1)
                      then le_byte 0x12345678 x else (fun _ => 0) x) /\
   (exists r, AtomicMemory.read U32 0 (fun _ => 0) = ROk r /\
     r = from_le_bytes (bytes_at (fun _ => 0) 0 (Z.to_nat (size_of U32 - 1))) /\
     0 <= r < 2 ^ (8 * (size_of U32 - 1))) /\
   (forall addr, 1 <= addr -> addr + size_of U32 - 1 <= BITS_MAX ->
     (exists m', AtomicMemory.write U32 addr 0x12345678 (fun _ => 0) = ROk m' /\
        forall x, m' x = if (addr <=? x) && (x <? addr + size_of U32)
                         then le_byte 0x12345678 (x - addr) else (fun _ => 0) x) /\
     AtomicMemory.read U32 addr (fun _ => 0) =
       ROk (from_le_bytes (bytes_at (fun _ => 0) addr (Z.to_nat (size_of U32)))))).
Proof.
  split; [intros; lia|].
  apply (atomic_access_at_zero_short U32 0x12345678 (fun _ => 0)). intros; lia.
Defined.

(** Claim C1 (failing input): in the atomic memory, writing
    [0x12345678] as a [u32] at address 0 stores only three bytes, and
    reading a [u32] at 0 over the bytes [78 56 34 12] yields [0x345678]
    instead of [0x12345678]; at address [0x1000] the same accesses are
    little-endian and complete. *)
Theorem le_access_fails_at_address_zero :
  (match AtomicMemory.write U32 0 0x12345678 (fun _ => 0) with
   | ROk m => bytes_at m 0 4 = [0x78; 0x56; 0x34; 0] /\
              AtomicMemory.read U32 0 m = ROk 0x345678
   | _ => False
   end) /\
  AtomicMemory.read U32 0 (Memory.store_bytes (fun _ => 0) 0 [0x78; 0x56; 0x34; 0x12])
    = ROk 0x345678 /\
  AtomicMemory.read U32 0x1000
    (Memory.store_bytes (fun _ => 0) 0x1000 [0x78; 0x56; 0x34; 0x12]) = ROk 0x12345678 /\
  (match AtomicMemory.write U32 0x1000 0x12345678 (fun _ => 0) with
   | ROk m => bytes_at m 0x1000 4 = [0x78; 0x56; 0x34; 0x12]
   | _ => False
   end) /\
  AtomicMemory.read U16 0 (Memory.store_bytes (fun _ => 0) 0 [0x78; 0x56]) = ROk 0x78 /\
  AtomicMemory.read U8 0 (Memory.store_bytes (fun _ => 0) 0 [0x78]) = ROk 0.
Proof. vm_compute. repeat split. Qed.

(** ** Page protection *)

Module ProtFacts.
Import Prot.

(** A fault reports, for one of the addresses the loop visits, the
    required bits missing from that page's mask. *)
Lemma check_pages_fault pages req addr n err :
  check_pages pages req addr n = RErr err ->
  exists j, (j < n)%nat /\
    contains (pages (page_idx (addr + Z.of_nat j * PAGE_SIZE))) req = false /\
    err = PageFault (Z.land (Z.lxor (pages (page_idx (addr + Z.of_nat j * PAGE_SIZE))) ALL_PROT) req).
Proof.
  revert addr; induction n as [|n IH]; intros addr H; simpl in H; [discriminate|].
  destruct (contains (pages (page_idx addr)) req) eqn:Hc.
  - destruct (IH _ H) as (j & Hj & Hcj & He). exists (S j).
    replace (addr + Z.of_nat (S j) * PAGE_SIZE)
      with (addr + PAGE_SIZE + Z.of_nat j * PAGE_SIZE) by lia.
    split; [lia|auto].
  - injection H as <-. exists 0%nat.
    rewrite Z.add_0_r. split; [lia|auto].
Qed.

Lemma check_prot_fault pages start end_ req err :
  check_prot pages start end_ req = RErr err ->
  exists x, start <= x <= end_ /\
    contains (pages (page_idx x)) req = false /\
    err = PageFault (Z.land (Z.lxor (pages (page_idx x)) ALL_PROT) req).
Proof.
  unfold check_prot, steps. intros H.
  destruct (Z.leb_spec start end_) as [Hle|Hgt]; [|discriminate].
  destruct (check_pages_fault _ _ _ _ _ H) as (j & Hj & Hc & He).
  exists (start + Z.of_nat j * PAGE_SIZE). split; [|auto].
  assert (0 <= (end_ - start) / PAGE_SIZE) by (apply Z.div_pos; unfold PAGE_SIZE; lia).
  assert (Z.of_nat j <= (end_ - start) / PAGE_SIZE) by lia.
  assert (Z.of_nat j * PAGE_SIZE <= (end_ - start) / PAGE_SIZE * PAGE_SIZE) by
    (unfold PAGE_SIZE in *; nia).
  pose proof (Z.mul_div_le (end_ - start) PAGE_SIZE ltac:(unfold PAGE_SIZE; lia)).
  unfold PAGE_SIZE in *; lia.
Qed.
End ProtFacts.

(** Claim C3 (failing input): [check_prot(4000..=4100, Read)] with page
    0 readable and page 1 (bytes 4096..8191) not readable succeeds: the
    loop visits only address 4000 and never the second page, although
    byte 4096 of the range lies on it. *)
Theorem check_prot_skips_straddled_page :
  let pages := fun i => if i =? 0 then READ else 0 in
  Prot.check_prot pages 4000 4100 READ = ROk tt /\
  4000 <= 4096 <= 4100 /\
  Prot.page_idx 4096 = 1 /\
  Prot.contains (pages (Prot.page_idx 4096)) READ = false /\
  Prot.check_prot pages 4096 4100 READ = RErr (PageFault READ).
Proof. cbv zeta. repeat split; try (vm_compute; reflexivity); lia. Qed.

(** ** The CPU step *)

Lemma bind_ok {A B E} (m : res A E) (f : A -> res B E) x :
  bind m f = ROk x -> exists a, m = ROk a /\ f a = ROk x.
Proof. destruct m; simpl; eauto; discriminate. Qed.

(** Peel one layer off a hypothesis [arm ... = ROk _]: a [?], an [if]
    or a [match] at its head. *)
Ltac step_res H :=
  match type of H with
  | bind ?m ?f = ROk _ =>
      let a := fresh "v" in let Hm := fresh "Hm" in
      apply bind_ok in H; destruct H as (a & Hm & H); cbv beta in H
  | (if ?b then _ else _) = ROk _ => destruct b eqn:?; cbv beta iota in H
  | (match ?x with _ => _ end) = ROk _ => destruct x eqn:?; cbv beta iota in H
  | RErr _ = ROk _ => discriminate H
  | RPanic = ROk _ => discriminate H
  end.

Ltac unfold_arm H :=
  cbv beta iota zeta delta [Cpu.arm Instruction.mode Instruction.dst Instruction.op_code
    Instruction.a Instruction.b Instruction.imm] in H.

Module CpuFacts.

(** An arm that falls through leaves [pc] alone. *)
Lemma arm_continue_pc now steady i s s' :
  Cpu.arm now steady i s = ROk (s', Cpu.Continue) ->
  Cpu.pc (fst (fst (fst s'))) = Cpu.pc (fst (fst (fst s))).
Proof.
  intros H. destruct i as [mode dst op a b imm]; destruct s as [[[c m] stop] k].
  unfold_arm H. repeat step_res H.
  all: match type of H with
       | ROk (_, Cpu.Return) = ROk (_, Cpu.Continue) => discriminate H
       | _ => injection H as <-; reflexivity
       end.
Qed.

(** Only [hlt], the jumps, [call] and [ret] return early. *)
Lemma arm_return_writes_pc now steady i s s' :
  Cpu.arm now steady i s = ROk (s', Cpu.Return) -> writes_pc i = true.
Proof.
  intros H. destruct i as [mode dst op a b imm]; destruct s as [[[c m] stop] k].
  unfold_arm H. repeat step_res H.
  all: match type of H with
       | ROk (_, Cpu.Continue) = ROk (_, Cpu.Return) => discriminate H
       | _ => reflexivity
       end.
Qed.

(** The mode-2 arms. *)
Lemma arm_jump now steady i c m stop k s' fl target :
  Instruction.mode i = 2 ->
  Cpu.arm now steady i (c, m, stop, k) = ROk (s', fl) ->
  Cpu.imm_or (Cpu.gp c) (Instruction.imm i) (Instruction.dst i) = ROk target ->
  (Instruction.op_code i = 0 -> fl = Cpu.Return /\ Cpu.pc (fst (fst (fst s'))) = target) /\
  (forall p va vb,
     Cpu.jump_cond (Instruction.op_code i) = Some p ->
     Cpu.get (Cpu.gp c) (Instruction.a i) = ROk va ->
     Cpu.get (Cpu.gp c) (Instruction.b i) = ROk vb ->
     if p va vb then fl = Cpu.Return /\ Cpu.pc (fst (fst (fst s'))) = target
     else fl = Cpu.Continue /\ s' = (c, m, stop, k)).
Proof.
  destruct i as [mode dst op a b imm]; intros Hm H Ht.
  cbv beta iota delta [Instruction.mode] in Hm; subst mode.
  cbv beta iota delta [Instruction.dst Instruction.op_code Instruction.a Instruction.b Instruction.imm] in Ht |- *.
  unfold_arm H. split.
  - (intros ->; cbv beta iota in H). rewrite Ht in H. cbv beta iota delta [bind] in H.
    injection H as <- <-. split; reflexivity.
  - intros p va vb Hp Ha Hb.
    destruct op as [|q|q]; [discriminate Hp| |]; cbv beta iota in H;
      rewrite Hp, Ht in H; cbv beta iota delta [bind] in H; rewrite Ha, Hb in H;
      cbv beta iota delta [bind] in H;
      destruct (p va vb); injection H as <- <-; split; reflexivity.
Qed.
End CpuFacts.

(** ** C7: advancing [pc] *)

(** C7: after a successful [Cpu::process], an instruction that does not
    write [pc] itself (not [hlt], a jump, [call] or [ret]) has advanced
    [pc] by 8 when it carries an immediate and by 4 otherwise (modulo
    2^32, the release build's [+=]); a taken conditional jump, and [jmp],
    set [pc] to the target, and a conditional jump whose predicate is
    false advances [pc] like any other instruction. *)
Theorem pc_advance now steady i c m stop k c' m' stop' k' :
  Cpu.process now steady i c m stop k = ROk (c', m', stop', k') ->
  (writes_pc i = false -> Cpu.pc c' = pc_next c i) /\
  (Instruction.mode i = 2 ->
   forall target,
   Cpu.imm_or (Cpu.gp c) (Instruction.imm i) (Instruction.dst i) = ROk target ->
   (Instruction.op_code i = 0 -> Cpu.pc c' = target) /\
   (forall p va vb,
      Cpu.jump_cond (Instruction.op_code i) = Some p ->
      Cpu.get (Cpu.gp c) (Instruction.a i) = ROk va ->
      Cpu.get (Cpu.gp c) (Instruction.b i) = ROk vb ->
      Cpu.pc c' = if p va vb then target else pc_next c i)).
Proof.
  unfold Cpu.process. intros H.
  apply bind_ok in H as ([s fl] & Harm & H).
  destruct s as [[[c1 m1] stop1] k1].
  destruct fl; cbv beta iota in H; injection H as <- <- <- <-.
  - pose proof (CpuFacts.arm_continue_pc _ _ _ _ _ Harm) as Hpc.
    cbv beta iota delta [fst] in Hpc. cbn [Cpu.with_pc Cpu.pc].
    split; [intros _; unfold pc_next; now rewrite Hpc |].
    intros Hm target Ht.
    pose proof (CpuFacts.arm_jump _ _ _ _ _ _ _ _ _ _ Hm Harm Ht) as [J0 J].
    split.
    + intros Hop. destruct (J0 Hop) as [Hf _]. discriminate Hf.
    + intros p va vb Hp Ha Hb. specialize (J p va vb Hp Ha Hb).
      destruct (p va vb); [destruct J as [Hf _]; discriminate Hf|].
      destruct J as [_ Hs]. injection Hs as -> _ _ _. reflexivity.
  - pose proof (CpuFacts.arm_return_writes_pc _ _ _ _ _ Harm) as Hw.
    split; [intros Hw'; congruence |].
    intros Hm target Ht.
    pose proof (CpuFacts.arm_jump _ _ _ _ _ _ _ _ _ _ Hm Harm Ht) as [J0 J].
    split.
    + intros Hop. destruct (J0 Hop) as [_ Hp]. exact Hp.
    + intros p va vb Hp Ha Hb. specialize (J p va vb Hp Ha Hb).
      destruct (p va vb); [destruct J as [_ Hp']; exact Hp'|].
      destruct J as [Hf _]; discriminate Hf.
Qed.

(** Witness for C7: [mov t0, 7] (with an immediate) from the initial CPU
    advances [pc] from 0 to 8. *)
Lemma pc_advance_witness :
  Cpu.process 0 false (Instruction.mk 1 5 15 0 0 (Some 7)) Cpu.new Emulator.memory_new false 1
  = ROk (Cpu.with_pc (Cpu.with_gp Cpu.new (<[5%nat := 7]> registers_default)) 8,
         Emulator.memory_new, false, 1) /\
  Cpu.pc (Cpu.with_pc (Cpu.with_gp Cpu.new (<[5%nat := 7]> registers_default)) 8)
  = pc_next Cpu.new (Instruction.mk 1 5 15 0 0 (Some 7)).
Proof.
  assert (H : Cpu.process 0 false (Instruction.mk 1 5 15 0 0 (Some 7)) Cpu.new
                Emulator.memory_new false 1
              = ROk (Cpu.with_pc (Cpu.with_gp Cpu.new (<[5%nat := 7]> registers_default)) 8,
                     Emulator.memory_new, false, 1)) by reflexivity.
  split; [exact H |].
  exact (proj1 (pc_advance _ _ _ _ _ _ _ _ _ _ _ H) eq_refl).
Defined.

(** ** C2: a zero dividend *)

(** C2: with [t1 = t2 = 0] (registers 6 and 7 of the initial CPU),
    [rem t0, t1, t2] and [irem t0, t1, t2] panic on Rust's remainder by
    zero instead of writing 0 to [t0], whereas [div] and [idiv], whose
    arms test [if a != 0], write 0 to [t0]; and for every second operand
    [b] the [div] and [idiv] arms map a zero dividend to 0. *)
Theorem rem_zero_dividend_panics :
  Cpu.process 0 false (Instruction.mk 1 5 13 6 7 None) Cpu.new Emulator.memory_new false 1
  = RPanic /\
  Cpu.process 0 false (Instruction.mk 1 5 14 6 7 None) Cpu.new Emulator.memory_new false 1
  = RPanic /\
  Cpu.process 0 false (Instruction.mk 1 5 11 6 7 None) Cpu.new Emulator.memory_new false 1
  = ROk (Cpu.with_pc (Cpu.with_gp Cpu.new (<[5%nat := 0]> registers_default)) 4,
         Emulator.memory_new, false, 1) /\
  Cpu.process 0 false (Instruction.mk 1 5 12 6 7 None) Cpu.new Emulator.memory_new false 1
  = ROk (Cpu.with_pc (Cpu.with_gp Cpu.new (<[5%nat := 0]> registers_default)) 4,
         Emulator.memory_new, false, 1) /\
  (forall f b, Cpu.binop 11 = Some f -> f 0 b = ROk 0) /\
  (forall f b, Cpu.binop 12 = Some f -> f 0 b = ROk 0).
Proof.
  split; [reflexivity |]. split; [reflexivity |].
  split; [reflexivity |]. split; [reflexivity |].
  split; intros f b Hf; injection Hf as <-; reflexivity.
Qed.

(** ** C8: the zero register *)

Module ZrFacts.
Lemma set_reg_zr r x v r' :
  0 <= x -> set_reg r x v = ROk r' -> r' !! 0%nat = r !! 0%nat.
Proof.
  unfold set_reg. intros Hx H.
  destruct (Z.eqb_spec x 0); [injection H as <-; reflexivity |].
  destruct (r !! Z.to_nat x); [| discriminate H].
  injection H as <-. apply list_lookup_insert_ne. lia.
Qed.

Lemma set_zr r x v r' :
  0 <= x -> Cpu.set r x v = ROk r' -> r' !! 0%nat = r !! 0%nat.
Proof.
  unfold Cpu.set, map_err. intros Hx H.
  destruct (set_reg r x v) eqn:E; try discriminate H.
  injection H as <-. eapply set_reg_zr; eassumption.
Qed.

Lemma alu_zr c i f r' :
  0 <= Instruction.dst i -> Cpu.alu c i f = ROk r' -> r' !! 0%nat = Cpu.gp c !! 0%nat.
Proof.
  unfold Cpu.alu. intros Hd H.
  repeat (apply bind_ok in H; destruct H as (? & _ & H)).
  eapply set_zr; eassumption.
Qed.

(** Every arm keeps slot 0 of the register file. *)
Lemma arm_zr now steady i c m stop k c' m' stop' k' fl :
  inst_regs_u8 i = true ->
  Cpu.arm now steady i (c, m, stop, k) = ROk ((c', m', stop', k'), fl) ->
  Cpu.gp c' !! 0%nat = Cpu.gp c !! 0%nat.
Proof.
  destruct i as [mode dst op a b imm]; intros Hu H.
  unfold inst_regs_u8 in Hu; cbv beta iota delta [Instruction.dst Instruction.a Instruction.b] in Hu.
  repeat rewrite andb_true_iff in Hu; rewrite !Z.leb_le, !Z.ltb_lt in Hu; destruct_and! Hu.
  unfold_arm H. repeat step_res H.
  all: injection H; intros; subst; cbn [Cpu.gp Cpu.with_gp Cpu.with_pc Cpu.with_gfx].
  all: repeat match goal with
       | Hs : Cpu.set ?r ?x _ = ROk ?r' |- ?r' !! 0%nat = _ =>
           rewrite (set_zr r x _ r' ltac:(first [lia | apply Z.land_nonneg; right; lia]) Hs);
           clear Hs
       | Ha : Cpu.alu ?c ?i ?f = ROk ?r' |- ?r' !! 0%nat = _ =>
           rewrite (alu_zr c i f r' ltac:(cbn; lia) Ha); clear Ha
       | |- <[?j := _]> _ !! 0%nat = _ =>
           etransitivity; [apply list_lookup_insert_ne; lia |]
       end.
  all: reflexivity.
Qed.

Lemma get_reg_zr r : r !! 0%nat = Some 0 -> get_reg r 0 = ROk 0.
Proof. intros H. unfold get_reg. change (Z.to_nat 0) with 0%nat. rewrite H. reflexivity. Qed.

Lemma process_zr now steady i c m stop k c' m' stop' k' :
  inst_regs_u8 i = true ->
  Cpu.process now steady i c m stop k = ROk (c', m', stop', k') ->
  Cpu.gp c' !! 0%nat = Cpu.gp c !! 0%nat.
Proof.
  unfold Cpu.process. intros Hu H.
  apply bind_ok in H as ([[[[c1 m1] stop1] k1] fl] & Harm & H).
  rewrite <- (arm_zr _ _ _ _ _ _ _ _ _ _ _ _ Hu Harm).
  destruct fl; cbv beta iota in H; injection H as <- <- <- <-; reflexivity.
Qed.
End ZrFacts.

(** C8: register 0 reads as zero and ignores writes: [set_reg(0, v)]
    succeeds and leaves the register file as it was; after any sequence
    of [set_reg] calls from [Registers::default] (register numbers being
    [u8], hence non-negative), [get_reg(0)] is [Ok(0)]; and after any
    halting run of the driver, whatever instructions it decodes (their
    register fields being [u8]), [get_reg(0)] is still [Ok(0)]. *)
Theorem zr_always_zero :
  (forall r v, set_reg r 0 v = ROk r) /\
  (forall ops, Forall (fun o => 0 <= fst o) ops ->
     get_reg (set_regs registers_default ops) 0 = ROk 0) /\
  (forall next_inst now steady fuel e e',
     (forall e0 i, next_inst e0 = ROk i -> inst_regs_u8 i = true) ->
     Cpu.gp (Emulator.cpu e) !! 0%nat = Some 0 ->
     Emulator.run next_inst (Cpu.process now steady) fuel e = Some (ROk e') ->
     get_reg (Cpu.gp (Emulator.cpu e')) 0 = ROk 0).
Proof.
  split; [reflexivity |]. split.
  - intros ops Hops. apply ZrFacts.get_reg_zr.
    assert (Hgen : forall r, r !! 0%nat = Some 0 -> set_regs r ops !! 0%nat = Some 0).
    { induction Hops as [| [x v] ops Hx _ IH]; intros r Hr; [exact Hr |].
      cbn [set_regs]. destruct (set_reg r x v) eqn:E; apply IH; try exact Hr.
      rewrite (ZrFacts.set_reg_zr _ _ _ _ Hx E). exact Hr. }
    exact (Hgen registers_default eq_refl).
  - intros next_inst now steady fuel.
    induction fuel as [| fuel IH]; intros e e' Hdec Hz Hrun; [discriminate Hrun |].
    cbn [Emulator.run] in Hrun.
    destruct (next_inst e) as [i | ie |] eqn:Ei; try discriminate Hrun.
    destruct (Prot.check_prot _ _ _ _); try discriminate Hrun.
    destruct (Cpu.process now steady i _ _ _ _) as [[[[c' m'] stop'] k'] | ce |] eqn:Ep;
      try discriminate Hrun.
    pose proof (ZrFacts.process_zr _ _ _ _ _ _ _ _ _ _ _ (Hdec _ _ Ei) Ep) as Hc.
    destruct stop'.
    + injection Hrun as <-. apply ZrFacts.get_reg_zr. cbn [Emulator.cpu]. rewrite Hc. exact Hz.
    + refine (IH _ _ Hdec _ Hrun). cbn [Emulator.cpu Cpu.gp]. rewrite Hc. exact Hz.
Qed.

(** Witness for C8: two writes, one of them to [zr], from the default
    register file; and a driver run of one [hlt]. *)
Lemma zr_always_zero_witness :
  get_reg (set_regs registers_default [(0, 5); (3, 7)]) 0 = ROk 0 /\
  get_reg (Cpu.gp (Emulator.cpu (Emulator.mk Cpu.new (Memory.mk (fun _ => 0) (fun _ => ALL_PROT))))) 0
  = ROk 0.
Proof.
  split.
  - apply (proj1 (proj2 zr_always_zero)). repeat constructor; cbn; lia.
  - apply (proj2 (proj2 zr_always_zero)
             (fun _ => ROk (Instruction.mk 0 0 1 0 0 None)) 0 false 1%nat
             (Emulator.mk Cpu.new (Memory.mk (fun _ => 0) (fun _ => ALL_PROT)))).
    + intros e0 i H. injection H as <-. reflexivity.
    + reflexivity.
    + reflexivity.
Defined.

(** ** C4: the fetch-time protection check *)

(** A page mask without [Execute] is missing exactly [Execute] out of
    [Execute]. *)
Lemma missing_execute r :
  Prot.contains r EXECUTE = false -> Z.land (Z.lxor r ALL_PROT) EXECUTE = EXECUTE.
Proof.
  unfold Prot.contains, EXECUTE, ALL_PROT. intros H. apply Z.eqb_neq in H.
  assert (Hb : Z.testbit r 2 = false).
  { destruct (Z.testbit r 2) eqn:E; [| reflexivity]. exfalso. apply H.
    apply Z.bits_inj'. intros n Hn. rewrite Z.land_spec.
    destruct (Z.eq_dec n 2) as [-> | Hne]; [rewrite E; reflexivity |].
    change 4 with (2 ^ 2). rewrite Z.pow2_bits_false by lia. apply andb_false_r. }
  apply Z.bits_inj'. intros n Hn. rewrite Z.land_spec, Z.lxor_spec.
  destruct (Z.eq_dec n 2) as [-> | Hne]; [rewrite Hb; reflexivity |].
  change 4 with (2 ^ 2). rewrite Z.pow2_bits_false by lia. apply andb_false_r.
Qed.

(** Claim C4 (counterexample): with the pages of [0..100] set to
    [Read | Write] over a program mapped [Read | Execute], the driver
    stops at [pc = 0] and at [pc = 8] with the same error
    [Mem(PageFault(Execute))]: the error holds no [pc], so it is not the
    [PageFault(Execute, 0)] of the claim. *)
Lemma fetch_fault_no_pc_counterexample :
  Emulator.run_emu 0 false 1
    (Emulator.mk (Cpu.with_pc Cpu.new 0)
       (Memory.mk (fun _ => 0)
          (Prot.set_prot (fun _ => Z.lor READ EXECUTE) 0 99 (Z.lor READ WRITE))))
  = Some (RErr (Mem (PageFault EXECUTE))) /\
  Emulator.run_emu 0 false 1
    (Emulator.mk (Cpu.with_pc Cpu.new 8)
       (Memory.mk (fun _ => 0)
          (Prot.set_prot (fun _ => Z.lor READ EXECUTE) 0 99 (Z.lor READ WRITE))))
  = Some (RErr (Mem (PageFault EXECUTE))).
Proof. split; vm_compute; reflexivity. Qed.

(** C4 (amended): when the bytes at [pc] decode and the page holding
    [pc] lacks [Execute], [Emulator::run] returns
    [Mem(PageFault(Execute))], an error with no [pc] in it, whatever
    [Cpu::process] would have done with the instruction: it is never
    executed. *)
Theorem fetch_fault_before_execute next_inst exec fuel e inst :
  next_inst e = ROk inst ->
  Prot.contains (Memory.pages (Emulator.mem e) (Prot.page_idx (Cpu.pc (Emulator.cpu e))))
    EXECUTE = false ->
  Emulator.run next_inst exec (S fuel) e = Some (RErr (Mem (PageFault EXECUTE))).
Proof.
  intros Hn Hc. cbn [Emulator.run]. rewrite Hn.
  unfold Prot.check_prot, Prot.steps. rewrite Z.leb_refl, Z.sub_diag.
  replace (Z.to_nat (0 / PAGE_SIZE)) with 0%nat by reflexivity.
  cbn [Prot.check_pages]. rewrite Hc, missing_execute by exact Hc. reflexivity.
Qed.

(** Witness for C4: the test's layout, a zero (decodable) word at
    [pc = 0] on a [Read | Write] page. *)
Lemma fetch_fault_before_execute_witness :
  Emulator.run_emu 0 false 5
    (Emulator.mk Cpu.new
       (Memory.mk (fun _ => 0)
          (Prot.set_prot (fun _ => Z.lor READ EXECUTE) 0 99 (Z.lor READ WRITE))))
  = Some (RErr (Mem (PageFault EXECUTE))).
Proof.
  apply (fetch_fault_before_execute Emulator.next_inst _ 4%nat _ (Instruction.mk 0 0 0 0 0 None)).
  - vm_compute. reflexivity.
  - vm_compute. reflexivity.
Defined.

(** ** The stack *)

Module StackFacts.
Lemma from_le_bytes_le_bytes n v :
  from_le_bytes (le_bytes n v) = v mod 2 ^ (8 * Z.of_nat n).
Proof.
  revert v; induction n as [| n IH]; intros v; cbn [le_bytes from_le_bytes].
  - rewrite Z.mul_0_r, Z.pow_0_r, Z.mod_1_r. reflexivity.
  - rewrite IH, Z.shiftr_div_pow2 by lia.
    change 255 with (Z.ones 8). rewrite Z.land_ones by lia.
    replace (8 * Z.of_nat (S n)) with (8 + 8 * Z.of_nat n) by lia.
    rewrite Z.pow_add_r by lia. rewrite Z.rem_mul_r; [reflexivity | lia |].
    apply Z.pow_pos_nonneg; lia.
Qed.

Lemma from_be_bytes_be_bytes32 v :
  0 <= v < 2 ^ 32 -> from_be_bytes (be_bytes32 v) = v.
Proof.
  intros Hv. unfold from_be_bytes, be_bytes32. rewrite rev_involutive.
  rewrite from_le_bytes_le_bytes. apply Z.mod_small. exact Hv.
Qed.

Lemma be_bytes32_length v : length (be_bytes32 v) = 4%nat.
Proof. reflexivity. Qed.

Lemma store_bytes_out m addr bs x :
  x < addr \/ addr + Z.of_nat (length bs) <= x -> Memory.store_bytes m addr bs x = m x.
Proof.
  revert m addr; induction bs as [| b bs IH]; intros m addr Hx; [reflexivity |].
  cbn [Memory.store_bytes length] in *. rewrite IH by lia.
  unfold upd. destruct (Z.eqb_spec x addr); [lia | reflexivity].
Qed.

Lemma bytes_at_store_bytes m addr bs :
  bytes_at (Memory.store_bytes m addr bs) addr (length bs) = bs.
Proof.
  revert m addr; induction bs as [| b bs IH]; intros m addr; [reflexivity |].
  cbn [Memory.store_bytes length bytes_at]. rewrite IH.
  rewrite store_bytes_out by lia. unfold upd. rewrite Z.eqb_refl. reflexivity.
Qed.

Lemma bytes_at_ext m m' addr n :
  (forall x, addr <= x < addr + Z.of_nat n -> m x = m' x) ->
  bytes_at m addr n = bytes_at m' addr n.
Proof.
  revert addr; induction n as [| n IH]; intros addr H; [reflexivity |].
  cbn [bytes_at]. rewrite (H addr) by lia. f_equal. apply IH. intros x Hx. apply H. lia.
Qed.

Lemma get_err r x e : Cpu.get r x = RErr e -> exists re, e = Reg re.
Proof.
  unfold Cpu.get, map_err. destruct (get_reg r x); intros H; try discriminate H.
  injection H as <-. eauto.
Qed.

Lemma set_err r x v e : Cpu.set r x v = RErr e -> exists re, e = Reg re.
Proof.
  unfold Cpu.set, map_err. destruct (set_reg r x v); intros H; try discriminate H.
  injection H as <-. eauto.
Qed.

(** [push]: a valid [sp] of [0] or at least [4]. *)
Lemma process_push now steady c m stop k dst a b imm va :
  Cpu.get (Cpu.gp c) a = ROk va ->
  sp (Cpu.gp c) = 0 \/ 4 <= sp (Cpu.gp c) <= BITS_MAX ->
  Cpu.process now steady (Instruction.mk 3 dst 0 a b imm) c m stop k
  = ROk (Cpu.with_pc
           (Cpu.with_gp c (<[2%nat := wrapping_sub (sp (Cpu.gp c)) 4]> (Cpu.gp c)))
           (pc_next c (Instruction.mk 3 dst 0 a b imm)),
         Memory.with_data m
           (Memory.store_bytes (Memory.data m) (wrapping_sub (sp (Cpu.gp c)) 4)
              (be_bytes32 va)),
         stop, 2).
Proof.
  intros Ha Hsp. unfold Cpu.process.
  cbv beta iota zeta delta [Cpu.arm Instruction.mode Instruction.dst Instruction.op_code
    Instruction.a Instruction.b Instruction.imm].
  rewrite Ha. cbv beta iota delta [bind].
  replace ((if sp (Cpu.gp c) <? wrapping_sub (sp (Cpu.gp c)) 4
            then 2 ^ 32 - wrapping_sub (sp (Cpu.gp c)) 4
            else sp (Cpu.gp c) - wrapping_sub (sp (Cpu.gp c)) 4) =? 4) with true.
  - reflexivity.
  - unfold wrapping_sub, BITS_MAX in *. destruct Hsp as [-> | Hsp].
    + reflexivity.
    + rewrite Z.mod_small by lia.
      destruct (Z.ltb_spec (sp (Cpu.gp c)) (sp (Cpu.gp c) - 4)); [lia |].
      symmetry. apply Z.eqb_eq. lia.
Qed.

(** [pop]: [sp + 4] does not overflow. *)
Lemma process_pop now steady c m stop k dst a b imm r2 :
  0 <= sp (Cpu.gp c) -> sp (Cpu.gp c) + 4 <= BITS_MAX ->
  Cpu.set (<[2%nat := sp (Cpu.gp c) + 4]> (Cpu.gp c)) dst
    (from_be_bytes (bytes_at (Memory.data m) (sp (Cpu.gp c)) 4)) = ROk r2 ->
  Cpu.process now steady (Instruction.mk 3 dst 1 a b imm) c m stop k
  = ROk (Cpu.with_pc (Cpu.with_gp c r2) (pc_next c (Instruction.mk 3 dst 1 a b imm)),
         m, stop, 2).
Proof.
  intros H0 Hsp Hs. unfold Cpu.process.
  cbv beta iota zeta delta [Cpu.arm Instruction.mode Instruction.dst Instruction.op_code
    Instruction.a Instruction.b Instruction.imm].
  destruct (Z.ltb_spec BITS_MAX (sp (Cpu.gp c) + 4)); [lia |].
  replace (wrapping_add (sp (Cpu.gp c)) 4) with (sp (Cpu.gp c) + 4)
    by (unfold wrapping_add, BITS_MAX in *; rewrite Z.mod_small; lia).
  rewrite Hs. reflexivity.
Qed.
End StackFacts.

(** ** C5: [push] and [pop] *)


(** [push] with [sp = 0] or [sp >= 4] sets [sp] to [sp - 4] (mod 2^32)
    and writes [reg a] big-endian at the new [sp]; [pop] with
    [sp + 4 <= 0xFFFFFFFF] sets [sp] to [sp + 4], then writes the
    big-endian word at the old [sp] into [dst].  Both set the cycle
    count to 2 and advance [pc]; the only errors they return are
    register errors. *)
Theorem push_pop_semantics now steady c m stop k dst a b imm :
  (forall va,
     Cpu.get (Cpu.gp c) a = ROk va ->
     sp (Cpu.gp c) = 0 \/ 4 <= sp (Cpu.gp c) <= BITS_MAX ->
     Cpu.process now steady (Instruction.mk 3 dst 0 a b imm) c m stop k
     = ROk (Cpu.with_pc
              (Cpu.with_gp c (<[2%nat := wrapping_sub (sp (Cpu.gp c)) 4]> (Cpu.gp c)))
              (pc_next c (Instruction.mk 3 dst 0 a b imm)),
            Memory.with_data m
              (Memory.store_bytes (Memory.data m) (wrapping_sub (sp (Cpu.gp c)) 4)
                 (be_bytes32 va)),
            stop, 2)) /\
  (forall r2,
     0 <= sp (Cpu.gp c) -> sp (Cpu.gp c) + 4 <= BITS_MAX ->
     Cpu.set (<[2%nat := sp (Cpu.gp c) + 4]> (Cpu.gp c)) dst
       (from_be_bytes (bytes_at (Memory.data m) (sp (Cpu.gp c)) 4)) = ROk r2 ->
     Cpu.process now steady (Instruction.mk 3 dst 1 a b imm) c m stop k
     = ROk (Cpu.with_pc (Cpu.with_gp c r2) (pc_next c (Instruction.mk 3 dst 1 a b imm)),
            m, stop, 2)) /\
  (forall op e,
     op = 0 \/ op = 1 ->
     Cpu.process now steady (Instruction.mk 3 dst op a b imm) c m stop k = RErr e ->
     exists re, e = Reg re).
Proof.
  split; [intros; apply StackFacts.process_push; assumption |].
  split; [intros; apply StackFacts.process_pop; assumption |].
  intros op e [-> | ->] H; unfold Cpu.process in H;
    cbv beta iota zeta delta [Cpu.arm Instruction.mode Instruction.dst Instruction.op_code
      Instruction.a Instruction.b Instruction.imm] in H.
  - destruct (Cpu.get (Cpu.gp c) a) as [va | e0 |] eqn:Ea; cbv beta iota delta [bind] in H.
    + repeat match type of H with context [if ?x then _ else _] => destruct x end;
        cbv beta iota in H; discriminate H.
    + injection H as <-. exact (StackFacts.get_err _ _ _ Ea).
    + discriminate H.
  - destruct (BITS_MAX <? sp (Cpu.gp c) + 4); [discriminate H |].
    destruct (Cpu.set _ dst _) as [r2 | e0 |] eqn:Es; cbv beta iota delta [bind] in H.
    + discriminate H.
    + injection H as <-. exact (StackFacts.set_err _ _ _ _ Es).
    + discriminate H.
Qed.

(** Witness for [push_pop_semantics]: [push t0] from the initial CPU
    ([sp = 0xFFFFFFFF]). *)
Lemma push_pop_semantics_witness :
  Cpu.process 0 false (Instruction.mk 3 0 0 5 0 None) Cpu.new Emulator.memory_new false 1
  = ROk (Cpu.with_pc
           (Cpu.with_gp Cpu.new (<[2%nat := wrapping_sub (sp (Cpu.gp Cpu.new)) 4]> (Cpu.gp Cpu.new)))
           (pc_next Cpu.new (Instruction.mk 3 0 0 5 0 None)),
         Memory.with_data Emulator.memory_new
           (Memory.store_bytes (Memory.data Emulator.memory_new)
              (wrapping_sub (sp (Cpu.gp Cpu.new)) 4) (be_bytes32 0)),
         false, 2).
Proof.
  apply (proj1 (push_pop_semantics 0 false Cpu.new Emulator.memory_new false 1 0 5 0 None) 0).
  - reflexivity.
  - right. change (sp (Cpu.gp Cpu.new)) with BITS_MAX. unfold BITS_MAX. lia.
Defined.

(** ** C9: stack round trips *)

Module LifoFacts.
Lemma exec_list_app now steady is1 is2 s :
  exec_list now steady (is1 ++ is2) s
  = bind (exec_list now steady is1 s) (exec_list now steady is2).
Proof.
  revert s; induction is1 as [| i is1 IH]; intros s; [reflexivity |].
  destruct s as [[[c m] stop] k]. cbn [exec_list app].
  destruct (Cpu.process now steady i c m stop k); cbn [bind]; [apply IH | reflexivity ..].
Qed.

Lemma set_regs_app r ops1 ops2 :
  set_regs r (ops1 ++ ops2) = set_regs (set_regs r ops1) ops2.
Proof.
  revert r; induction ops1 as [| [x v] ops1 IH]; intros r; [reflexivity |].
  cbn [set_regs app]. destruct (set_reg r x v); apply IH.
Qed.

Lemma set_regs_length r ops : length (set_regs r ops) = length r.
Proof.
  revert r; induction ops as [| [x v] ops IH]; intros r; [reflexivity |].
  cbn [set_regs]. unfold set_reg.
  destruct (x =? 0); [apply IH |].
  destruct (r !! Z.to_nat x); rewrite IH; [apply length_insert | reflexivity].
Qed.

Lemma set_regs_insert2 r y ops :
  Forall (fun o => 0 <= fst o /\ fst o <> 2) ops ->
  set_regs (<[2%nat := y]> r) ops = <[2%nat := y]> (set_regs r ops).
Proof.
  intros Hops; revert r; induction Hops as [| [x v] ops [Hx0 Hx2] _ IH]; intros r;
    [reflexivity |].
  cbn [set_regs fst] in *. unfold set_reg.
  destruct (x =? 0); [apply IH |].
  rewrite list_lookup_insert_ne by lia.
  destruct (r !! Z.to_nat x); [| apply IH].
  rewrite list_insert_insert, decide_False by lia. apply IH.
Qed.

Lemma set_regs_lookup2 r ops :
  Forall (fun o => 0 <= fst o /\ fst o <> 2) ops -> set_regs r ops !! 2%nat = r !! 2%nat.
Proof.
  intros Hops; revert r; induction Hops as [| [x v] ops [Hx0 Hx2] _ IH]; intros r;
    [reflexivity |].
  cbn [set_regs fst] in *. unfold set_reg.
  destruct (x =? 0); [apply IH |].
  destruct (r !! Z.to_nat x); rewrite IH; [| reflexivity].
  apply list_lookup_insert_ne. lia.
Qed.

Lemma field_lookup r i : (i < length r)%nat -> r !! i = Some (field r i).
Proof.
  intros Hi. unfold field. destruct (lookup_lt_is_Some_2 r i Hi) as [v Hv].
  rewrite Hv. reflexivity.
Qed.

Lemma field_bound (P : Z -> Prop) r i :
  Forall P r -> (i < length r)%nat -> P (field r i).
Proof. intros HP Hi. exact (Forall_lookup_1 P r i _ HP (field_lookup r i Hi)). Qed.

Lemma get_field r x :
  length r = 32%nat -> 0 <= x < 32 -> Cpu.get r x = ROk (field r (Z.to_nat x)).
Proof.
  intros Hl Hx. unfold Cpu.get, get_reg.
  rewrite (field_lookup r (Z.to_nat x)) by lia. reflexivity.
Qed.

Lemma set_ok r x v :
  length r = 32%nat -> 0 <= x < 32 -> Cpu.set r x v = ROk (set_regs r [(x, v)]).
Proof.
  intros Hl Hx. unfold Cpu.set. cbn [set_regs]. unfold set_reg.
  destruct (x =? 0); [reflexivity |].
  rewrite (field_lookup r (Z.to_nat x)) by lia. reflexivity.
Qed.

Lemma Forall_rev_combine (P : Z -> Prop) ds (vs : list Z) :
  Forall P ds -> Forall (fun o => P (fst o)) (rev (combine ds vs)).
Proof.
  intros H. apply Forall_rev. revert vs; induction H as [| d ds Hd _ IH]; intros vs;
    [constructor |].
  destruct vs as [| v vs]; constructor; [exact Hd | apply IH].
Qed.

Lemma sp_insert2 r y : length r = 32%nat -> sp (<[2%nat := y]> r) = y.
Proof. intros Hl. unfold sp, field. rewrite list_lookup_insert_eq by lia. reflexivity. Qed.
End LifoFacts.

(** The nested form of the round trip: [push r; <inner>; pop d]. *)
Lemma lifo_gen now steady rs :
  forall ds c m stop k,
  length rs = length ds ->
  Forall (fun r => 0 <= r < 32) rs ->
  Forall (fun d => 0 <= d < 32 /\ d <> 2) ds ->
  length (Cpu.gp c) = 32%nat ->
  Forall (fun v => 0 <= v <= BITS_MAX) (Cpu.gp c) ->
  4 * Z.of_nat (length rs) <= sp (Cpu.gp c) ->
  exists c' m' k',
    exec_list now steady (map push_inst rs ++ rev (map pop_inst ds)) (c, m, stop, k)
    = ROk (c', m', stop, k') /\
    Cpu.gp c' = set_regs (Cpu.gp c) (rev (combine ds (pushed (Cpu.gp c) rs))) /\
    (forall x, x < sp (Cpu.gp c) - 4 * Z.of_nat (length rs) \/ sp (Cpu.gp c) <= x ->
       Memory.data m' x = Memory.data m x).
Proof.
  induction rs as [| r rs IH]; intros [| d ds] c m stop k Hlen Hrs Hds Hl Hu Hsp;
    try discriminate Hlen.
  - exists c, m, k. split; [reflexivity |]. split; [reflexivity | auto].
  - cbn [length] in Hlen, Hsp. injection Hlen as Hlen.
    inversion Hrs as [| ? ? Hr Hrs']; subst.
    inversion Hds as [| ? ? Hd Hds']; subst.
    remember (sp (Cpu.gp c)) as s eqn:Hs.
    remember (field (Cpu.gp c) (Z.to_nat r)) as v eqn:Hv.
    assert (Hsb : 0 <= s <= BITS_MAX)
      by (rewrite Hs; apply (LifoFacts.field_bound _ _ _ Hu); lia).
    assert (Hvb : 0 <= v <= BITS_MAX)
      by (rewrite Hv; apply (LifoFacts.field_bound _ _ _ Hu); lia).
    assert (Hws : wrapping_sub s 4 = s - 4)
      by (unfold wrapping_sub, BITS_MAX in *; rewrite Z.mod_small; lia).
    (* push r *)
    pose proof (StackFacts.process_push now steady c m stop k 0 r 0 None v) as Hpush.
    rewrite <- Hs, Hws in Hpush.
    specialize (Hpush ltac:(rewrite Hv; apply LifoFacts.get_field; [exact Hl | lia])
                      ltac:(right; lia)).
    remember (Cpu.with_pc (Cpu.with_gp c (<[2%nat := s - 4]> (Cpu.gp c)))
                (pc_next c (Instruction.mk 3 0 0 r 0 None))) as c1 eqn:Hc1.
    remember (Memory.with_data m (Memory.store_bytes (Memory.data m) (s - 4) (be_bytes32 v)))
      as m1 eqn:Hm1.
    assert (Hgp1 : Cpu.gp c1 = <[2%nat := s - 4]> (Cpu.gp c)) by (rewrite Hc1; reflexivity).
    assert (Hl1 : length (Cpu.gp c1) = 32%nat) by (rewrite Hgp1, length_insert; exact Hl).
    assert (Hu1 : Forall (fun v => 0 <= v <= BITS_MAX) (Cpu.gp c1))
      by (rewrite Hgp1; apply Forall_insert; [exact Hu | lia]).
    assert (Hsp1 : sp (Cpu.gp c1) = s - 4) by (rewrite Hgp1; apply LifoFacts.sp_insert2; exact Hl).
    (* the inner sequence *)
    destruct (IH ds c1 m1 stop 2 Hlen Hrs' Hds' Hl1 Hu1 ltac:(rewrite Hsp1; lia))
      as (c2 & m2 & k2 & Hex & Hgp2 & Hm2).
    remember (rev (combine ds (pushed (Cpu.gp c1) rs))) as ops eqn:Hops_def.
    assert (Hops : Forall (fun o => 0 <= fst o /\ fst o <> 2) ops).
    { rewrite Hops_def. apply (LifoFacts.Forall_rev_combine (fun d => 0 <= d /\ d <> 2)).
      clear - Hds'. induction Hds'; constructor; [cbv beta in *; lia | assumption]. }
    assert (Hl2 : length (Cpu.gp c2) = 32%nat)
      by (rewrite Hgp2, LifoFacts.set_regs_length; exact Hl1).
    assert (Hsp2 : sp (Cpu.gp c2) = s - 4).
    { rewrite <- Hsp1, Hgp2. unfold sp, field.
      rewrite LifoFacts.set_regs_lookup2 by exact Hops. reflexivity. }
    assert (Hbytes : bytes_at (Memory.data m2) (s - 4) 4 = be_bytes32 v).
    { rewrite (StackFacts.bytes_at_ext (Memory.data m2) (Memory.data m1)).
      - rewrite Hm1. exact (StackFacts.bytes_at_store_bytes _ _ (be_bytes32 v)).
      - intros x Hx. apply Hm2. rewrite Hsp1. lia. }
    (* pop d *)
    assert (Hset : Cpu.set (<[2%nat := sp (Cpu.gp c2) + 4]> (Cpu.gp c2)) d
                     (from_be_bytes (bytes_at (Memory.data m2) (sp (Cpu.gp c2)) 4))
                   = ROk (set_regs (<[2%nat := s]> (Cpu.gp c2)) [(d, v)])).
    { rewrite Hsp2, Hbytes, StackFacts.from_be_bytes_be_bytes32
        by (unfold BITS_MAX in *; lia).
      replace (s - 4 + 4) with s by lia.
      apply LifoFacts.set_ok; [rewrite length_insert; exact Hl2 | lia]. }
    pose proof (StackFacts.process_pop now steady c2 m2 stop k2 d 0 0 None _
                  ltac:(lia) ltac:(lia) Hset) as Hpop.
    exists (Cpu.with_pc (Cpu.with_gp c2 (set_regs (<[2%nat := s]> (Cpu.gp c2)) [(d, v)]))
              (pc_next c2 (Instruction.mk 3 d 1 0 0 None))), m2, 2.
    split; [| split].
    + cbn [map rev app]. rewrite app_assoc. cbn [exec_list].
      unfold push_inst at 1. rewrite Hpush. cbn [bind].
      rewrite LifoFacts.exec_list_app, Hex. cbn [bind exec_list].
      unfold pop_inst. rewrite Hpop. reflexivity.
    + cbn [Cpu.gp Cpu.with_pc Cpu.with_gp]. rewrite Hgp2.
      cbn [pushed combine rev]. rewrite <- Hs, <- Hv, <- Hgp1, <- Hops_def.
      rewrite LifoFacts.set_regs_app. f_equal.
      rewrite Hgp1, LifoFacts.set_regs_insert2 by exact Hops.
      rewrite list_insert_insert, decide_True by reflexivity.
      apply list_insert_id.
      rewrite LifoFacts.set_regs_lookup2 by exact Hops.
      rewrite Hs. apply LifoFacts.field_lookup. lia.
    + intros x Hx. cbn [length] in Hx. rewrite Hm2 by (rewrite Hsp1; lia).
      rewrite Hm1. cbn [Memory.with_data Memory.data].
      apply StackFacts.store_bytes_out. rewrite StackFacts.be_bytes32_length. lia.
Qed.

(** Claim C9 (counterexample): with [t0 = 5] and [sp = 100], [push t0]
    followed by [pop sp] leaves [sp = 5], not its value 100 before the
    push: [pop] sets [sp] to [sp + 4] and then writes the popped word to
    its destination, which here is [sp] itself. *)
Lemma stack_lifo_pop_sp_counterexample :
  match exec_list 0 false [push_inst 5; pop_inst 2]
          (Cpu.with_gp Cpu.new (<[5%nat := 5]> (<[2%nat := 100]> registers_default)),
           Emulator.memory_new, false, 1) with
  | ROk (c', _, _, _) => sp (Cpu.gp c') = 5
  | _ => False
  end.
Proof. vm_compute. reflexivity. Qed.

(** C9 (amended): from a 32-entry register file of [u32] values whose
    [sp] is at least [4 k] (so that no [sp] arithmetic wraps), the
    sequence [push r_1 ... push r_k] then [pop d_k ... pop d_1], with
    every [d_i] a register other than [sp], succeeds; [pop d_i] writes
    the word that [push r_i] stored, so the final register file is the
    initial one updated by [set_reg(d_k, v_k)], ..., [set_reg(d_1, v_1)]
    where [v_i] is the value [push r_i] read (a write to [zr] being
    dropped), and [sp] ends at its value before the first push. *)
Theorem stack_lifo now steady rs ds c m stop k :
  length rs = length ds ->
  Forall (fun r => 0 <= r < 32) rs ->
  Forall (fun d => 0 <= d < 32 /\ d <> 2) ds ->
  length (Cpu.gp c) = 32%nat ->
  Forall (fun v => 0 <= v <= BITS_MAX) (Cpu.gp c) ->
  4 * Z.of_nat (length rs) <= sp (Cpu.gp c) ->
  exists c' m' k',
    exec_list now steady (map push_inst rs ++ rev (map pop_inst ds)) (c, m, stop, k)
    = ROk (c', m', stop, k') /\
    Cpu.gp c' = set_regs (Cpu.gp c) (rev (combine ds (pushed (Cpu.gp c) rs))) /\
    sp (Cpu.gp c') = sp (Cpu.gp c).
Proof.
  intros Hlen Hrs Hds Hl Hu Hsp.
  destruct (lifo_gen now steady rs ds c m stop k Hlen Hrs Hds Hl Hu Hsp)
    as (c' & m' & k' & Hex & Hgp & _).
  exists c', m', k'. split; [exact Hex |]. split; [exact Hgp |].
  unfold sp, field. rewrite Hgp, LifoFacts.set_regs_lookup2; [reflexivity |].
  apply (LifoFacts.Forall_rev_combine (fun d => 0 <= d /\ d <> 2)).
  clear - Hds. induction Hds; constructor; [cbv beta in *; lia | assumption].
Qed.

(** Witness for C9: [push t0; push sp; pop t1; pop t2] with [t0 = 42]
    and [sp = 100]. *)
Lemma stack_lifo_witness :
  exists c' m' k',
    exec_list 0 false (map push_inst [5; 2] ++ rev (map pop_inst [6; 7]))
      (Cpu.with_gp Cpu.new (<[5%nat := 42]> (<[2%nat := 100]> registers_default)),
       Emulator.memory_new, false, 1)
    = ROk (c', m', false, k') /\
    Cpu.gp c' = set_regs (<[5%nat := 42]> (<[2%nat := 100]> registers_default))
                  (rev (combine [6; 7] (pushed (<[5%nat := 42]> (<[2%nat := 100]> registers_default))
                                          [5; 2]))) /\
    sp (Cpu.gp c') = sp (<[5%nat := 42]> (<[2%nat := 100]> registers_default)).
Proof.
  apply (stack_lifo 0 false [5; 2] [6; 7]
           (Cpu.with_gp Cpu.new (<[5%nat := 42]> (<[2%nat := 100]> registers_default)))
           Emulator.memory_new false 1).
  - reflexivity.
  - apply (bool_decide_unpack _). vm_compute. exact I.
  - apply (bool_decide_unpack _). vm_compute. exact I.
  - reflexivity.
  - apply (bool_decide_unpack _). vm_compute. exact I.
  - apply (bool_decide_unpack _). vm_compute. exact I.
Defined.

(** * Further properties of the code *)

Module MemFacts.
Import AtomicMemory.

Lemma bytes_at_le n v addr (f : Z -> Z) :
  (forall j, 0 <= j < Z.of_nat n -> f (addr + j) = le_byte v j) ->
  bytes_at f addr n = le_bytes n v.
Proof.
  revert v addr; induction n as [|n IH]; intros v addr H; [reflexivity|].
  cbn [bytes_at le_bytes]. f_equal.
  - rewrite <- (Z.add_0_r addr), H by lia. unfold le_byte. now rewrite Z.shiftr_0_r.
  - apply IH. intros j Hj. rewrite <- Z.add_assoc, H by lia.
    unfold le_byte. rewrite Z.shiftr_shiftr by lia. f_equal. f_equal. lia.
Qed.

(** The typed atomic write followed by the read at the same address,
    from address 1 on. *)
Lemma atomic_roundtrip ty addr v m :
  1 <= addr -> addr + size_of ty - 1 <= BITS_MAX ->
  exists m', write ty addr v m = ROk m' /\
    read ty addr m' = ROk (v mod 2 ^ (8 * size_of ty)).
Proof.
  intros H1 H2. pose proof (AtomicMemoryProps.size_of_range ty).
  rewrite AtomicMemoryProps.write_ok by lia.
  rewrite AtomicMemoryProps.slice_len_pos by lia.
  eexists; split; [reflexivity|].
  rewrite AtomicMemoryProps.read_ok by lia.
  rewrite AtomicMemoryProps.slice_len_pos by lia.
  rewrite AtomicMemoryFacts.load_zip_spec, Nat.min_id, Nat.sub_diag. cbn [replicate].
  rewrite app_nil_r.
  rewrite (bytes_at_le _ v).
  - rewrite StackFacts.from_le_bytes_le_bytes, Z2Nat.id by lia. reflexivity.
  - intros j Hj. rewrite AtomicMemoryFacts.store_zip_le by lia.
    rewrite Z2Nat.id in * by lia.
    destruct (Z.leb_spec addr (addr + j)), (Z.ltb_spec (addr + j) (addr + size_of ty)); try lia.
    cbn. f_equal. lia.
Qed.

Lemma store_zip_store_bytes m addr len buf :
  (length buf <= len)%nat -> store_zip m addr len buf = Memory.store_bytes m addr buf.
Proof.
  revert m addr len; induction buf as [|b buf IH]; intros m addr len H.
  - destruct len; reflexivity.
  - destruct len as [|len]; cbn [length] in H; [lia|]. cbn. apply IH. lia.
Qed.

Lemma load_into_spec m addr len buf :
  load_into m addr len buf = bytes_at m addr (Nat.min len (length buf)) ++ drop len buf.
Proof.
  revert m addr len; induction buf as [|b buf IH]; intros m addr len.
  - destruct len; reflexivity.
  - destruct len as [|len]; [reflexivity|]. cbn. rewrite IH. reflexivity.
Qed.

Lemma memwrite_ok m addr buf :
  0 <= addr -> addr + saturating_sub (Z.of_nat (length buf)) 1 <= BITS_MAX ->
  Z.of_nat (length buf) <= 2 ^ 32 ->
  memwrite m addr buf =
  ROk (store_zip m addr
         (Z.to_nat (saturating_sub (addr + saturating_sub (Z.of_nat (length buf)) 1)
                      (saturating_sub addr 1))) buf).
Proof.
  intros H0 H1 H2. unfold memwrite, checked_add.
  rewrite (Z.mod_small (saturating_sub _ 1)) by (unfold saturating_sub; lia).
  destruct (Z.leb_spec (addr + saturating_sub (Z.of_nat (length buf)) 1) BITS_MAX); [reflexivity|lia].
Qed.

Lemma memcpy_ok x86 m addr buf :
  0 <= addr -> addr + saturating_sub (Z.of_nat (length buf)) 1 <= BITS_MAX ->
  Z.of_nat (length buf) <= 2 ^ 32 ->
  memcpy x86 m addr buf =
  ROk (if x86 then bytes_at m addr (length buf)
       else load_into m addr
         (Z.to_nat (saturating_sub (addr + saturating_sub (Z.of_nat (length buf)) 1)
                      (saturating_sub addr 1))) buf).
Proof.
  intros H0 H1 H2. unfold memcpy, checked_add.
  rewrite (Z.mod_small (saturating_sub _ 1)) by (unfold saturating_sub; lia).
  destruct (Z.leb_spec (addr + saturating_sub (Z.of_nat (length buf)) 1) BITS_MAX); [reflexivity|lia].
Qed.
End MemFacts.

(** [mmu::memory::Memory::write] then [read] of the same integer type
    at the same address, from address 1 on and with no overflow of
    [addr + size - 1]: the read returns the value written, truncated to
    the type's width. *)
Theorem atomic_write_read_roundtrip ty addr v m :
  1 <= addr -> addr + size_of ty - 1 <= BITS_MAX ->
  match AtomicMemory.write ty addr v m with
  | ROk m' => AtomicMemory.read ty addr m' = ROk (v mod 2 ^ (8 * size_of ty))
  | _ => False
  end.
Proof.
  intros H1 H2. destruct (MemFacts.atomic_roundtrip ty addr v m H1 H2) as (m' & -> & H).
  exact H.
Qed.

(** [mmu::memory::Memory::memwrite] of a buffer at [addr >= 1] whose
    last byte stays within the address space, then [memcpy] of a buffer
    of the same length at the same address (either copy loop, the
    [x86_64] one or the other), returns the buffer written. *)
Theorem memwrite_memcpy_roundtrip x86 m addr buf dst :
  1 <= addr <= BITS_MAX -> addr + Z.of_nat (length buf) <= 2 ^ 32 ->
  length dst = length buf ->
  match AtomicMemory.memwrite m addr buf with
  | ROk m' => AtomicMemory.memcpy x86 m' addr dst = ROk buf
  | _ => False
  end.
Proof.
  intros Ha Hl Hd.
  assert (Hs : addr + saturating_sub (Z.of_nat (length buf)) 1 <= BITS_MAX)
    by (unfold saturating_sub, BITS_MAX in *; lia).
  assert (Hlen : (length buf <= Z.to_nat (saturating_sub (addr + saturating_sub (Z.of_nat (length buf)) 1)
                      (saturating_sub addr 1)))%nat)
    by (unfold saturating_sub; lia).
  rewrite MemFacts.memwrite_ok by lia.
  rewrite MemFacts.memcpy_ok by (rewrite ?Hd; lia).
  rewrite MemFacts.store_zip_store_bytes by lia.
  rewrite Hd. destruct x86.
  - rewrite StackFacts.bytes_at_store_bytes. reflexivity.
  - rewrite MemFacts.load_into_spec, Hd, drop_ge by lia.
    rewrite app_nil_r. f_equal. replace (Nat.min _ _) with (length buf) by lia.
    apply StackFacts.bytes_at_store_bytes.
Qed.


(** For a buffer of 1 to 2^32 bytes, at address 0 the inclusive slice
    [addr..=end] has one byte fewer than the buffer: [memwrite] of a non-empty buffer stores all bytes
    but the last, the [x86_64] [memcpy] copies the whole length, and the
    other [memcpy] copies all bytes but the last, leaving the last byte
    of the destination buffer unchanged. *)
Theorem memwrite_memcpy_at_zero m buf dst :
  (1 <= length buf)%nat -> Z.of_nat (length buf) <= 2 ^ 32 ->
  length dst = length buf ->
  (exists m', AtomicMemory.memwrite m 0 buf = ROk m' /\
     forall x, m' x = if (0 <=? x) && (x <? Z.of_nat (length buf) - 1)
                      then nth (Z.to_nat x) buf 0 else m x) /\
  AtomicMemory.memcpy true m 0 dst = ROk (bytes_at m 0 (length dst)) /\
  AtomicMemory.memcpy false m 0 dst = ROk (bytes_at m 0 (length dst - 1) ++ drop (length dst - 1) dst).
Proof.
  intros H1 H2 Hd.
  assert (Hs : 0 + saturating_sub (Z.of_nat (length buf)) 1 <= BITS_MAX)
    by (unfold saturating_sub, BITS_MAX in *; lia).
  assert (Hz : saturating_sub (0 + saturating_sub (Z.of_nat (length buf)) 1) (saturating_sub 0 1)
               = Z.of_nat (length buf) - 1) by (unfold saturating_sub; lia).
  split; [|split].
  - rewrite MemFacts.memwrite_ok by lia. rewrite Hz.
    eexists; split; [reflexivity|]. intros x.
    rewrite AtomicMemoryFacts.store_zip_spec.
    replace (Nat.min (Z.to_nat (Z.of_nat (length buf) - 1)) (length buf))
      with (Z.to_nat (Z.of_nat (length buf) - 1)) by lia.
    rewrite Z2Nat.id by lia. rewrite Z.sub_0_r, Z.add_0_l. reflexivity.
  - rewrite MemFacts.memcpy_ok by (rewrite ?Hd; lia). reflexivity.
  - rewrite MemFacts.memcpy_ok by (rewrite ?Hd; lia). rewrite Hd, Hz.
    rewrite MemFacts.load_into_spec, Hd.
    replace (Nat.min (Z.to_nat (Z.of_nat (length buf) - 1)) (length buf))
      with (length buf - 1)%nat by lia.
    replace (Z.to_nat (Z.of_nat (length buf) - 1)) with (length buf - 1)%nat by lia.
    reflexivity.
Qed.

(** For a buffer of at most 2^32 bytes (beyond that [len - 1 as u32]
    truncates), [memwrite] and [memcpy] fail exactly when [addr + len - 1] (with
    [len - 1] saturating at 0) exceeds [u32::MAX]; [Overflow] is their
    only error, and they never panic. *)
Theorem memwrite_memcpy_overflow_iff x86 m addr buf :
  0 <= addr -> Z.of_nat (length buf) <= 2 ^ 32 ->
  (AtomicMemory.memwrite m addr buf = RErr Overflow <->
     BITS_MAX < addr + saturating_sub (Z.of_nat (length buf)) 1) /\
  (AtomicMemory.memcpy x86 m addr buf = RErr Overflow <->
     BITS_MAX < addr + saturating_sub (Z.of_nat (length buf)) 1) /\
  (forall e, AtomicMemory.memwrite m addr buf = RErr e -> e = Overflow) /\
  (forall e, AtomicMemory.memcpy x86 m addr buf = RErr e -> e = Overflow) /\
  AtomicMemory.memwrite m addr buf <> RPanic /\ AtomicMemory.memcpy x86 m addr buf <> RPanic.
Proof.
  intros H0 Hl. unfold AtomicMemory.memwrite, AtomicMemory.memcpy, checked_add.
  rewrite (Z.mod_small (saturating_sub _ 1)) by (unfold saturating_sub; lia).
  destruct (Z.leb_spec (addr + saturating_sub (Z.of_nat (length buf)) 1) BITS_MAX);
    repeat split; intros; try discriminate; try congruence; try lia.
Qed.

Module MmuFacts.
Lemma check_prot_u32 mmu addr req :
  Mmu.check_prot mmu (IntoRange.of_u32 addr) req =
  if Prot.contains (Mmu.prot mmu addr) req then ROk tt
  else RErr (PageFault (Z.land (Z.lxor (Mmu.prot mmu addr) ALL_PROT) req)).
Proof.
  unfold Mmu.check_prot, Prot.check_prot, Prot.steps, IntoRange.of_u32, Mmu.prot; cbn [fst snd].
  rewrite Z.leb_refl, Z.sub_diag. reflexivity.
Qed.
End MmuFacts.

(** [Mmu::new] gives every page the empty protection, so every
    protected [read] faults with [PageFault(Read)] and every [write] with
    [PageFault(Write)]. *)
Theorem mmu_new_denies_access ty addr v :
  Mmu.prot Mmu.new addr = 0 /\
  Mmu.read ty addr Mmu.new = RErr (PageFault READ) /\
  Mmu.write ty addr v Mmu.new = RErr (PageFault WRITE).
Proof.
  unfold Mmu.read, Mmu.write. rewrite !MmuFacts.check_prot_u32. repeat split.
Qed.

(** [Mmu::read] and [Mmu::write] check only the page of [addr]: without
    the required bit there they fault with the missing bits; with it
    they fail with [Overflow] exactly when [addr + size - 1] overflows,
    and otherwise do what the unprotected memory access does, leaving
    the pages unchanged. *)
Theorem mmu_access_checks_first_page ty addr v mmu :
  (Prot.contains (Mmu.prot mmu addr) READ = false ->
     Mmu.read ty addr mmu = RErr (PageFault (Z.land (Z.lxor (Mmu.prot mmu addr) ALL_PROT) READ))) /\
  (Prot.contains (Mmu.prot mmu addr) WRITE = false ->
     Mmu.write ty addr v mmu = RErr (PageFault (Z.land (Z.lxor (Mmu.prot mmu addr) ALL_PROT) WRITE))) /\
  (Prot.contains (Mmu.prot mmu addr) READ = true ->
     (Mmu.read ty addr mmu = RErr Overflow <-> BITS_MAX < addr + size_of ty - 1) /\
     (addr + size_of ty - 1 <= BITS_MAX -> Mmu.read ty addr mmu = AtomicMemory.read ty addr (Mmu.mem mmu))) /\
  (Prot.contains (Mmu.prot mmu addr) WRITE = true ->
     (Mmu.write ty addr v mmu = RErr Overflow <-> BITS_MAX < addr + size_of ty - 1) /\
     (addr + size_of ty - 1 <= BITS_MAX -> exists mmu',
        Mmu.write ty addr v mmu = ROk mmu' /\ Mmu.pages mmu' = Mmu.pages mmu /\
        AtomicMemory.write ty addr v (Mmu.mem mmu) = ROk (Mmu.mem mmu'))).
Proof.
  unfold Mmu.read, Mmu.write. rewrite !MmuFacts.check_prot_u32.
  split; [intros ->; reflexivity|]. split; [intros ->; reflexivity|].
  split; intros ->; cbn [bind].
  - unfold AtomicMemory.read. rewrite AtomicMemoryProps.size_minus_one. unfold checked_add.
    destruct (Z.leb_spec (addr + (size_of ty - 1)) BITS_MAX);
      (split; [split; intros; try discriminate; try lia; try reflexivity | intros; try lia; reflexivity]).
  - unfold AtomicMemory.write. rewrite AtomicMemoryProps.size_minus_one. unfold checked_add.
    destruct (Z.leb_spec (addr + (size_of ty - 1)) BITS_MAX);
      (split; [split; intros; try discriminate; try lia; try reflexivity | intros; try lia]).
    eexists; repeat split.
Qed.

(** On a page holding both [Read] and [Write], a successful
    [Mmu::write] is followed by an [Mmu::read] of the same type at the
    same address that returns the value written, truncated to the
    type's width (from address 1 on, without overflow). *)
Theorem mmu_write_read_roundtrip ty addr v mmu :
  1 <= addr -> addr + size_of ty - 1 <= BITS_MAX ->
  Prot.contains (Mmu.prot mmu addr) READ = true ->
  Prot.contains (Mmu.prot mmu addr) WRITE = true ->
  match Mmu.write ty addr v mmu with
  | ROk mmu' => Mmu.read ty addr mmu' = ROk (v mod 2 ^ (8 * size_of ty))
  | _ => False
  end.
Proof.
  intros H1 H2 Hr Hw. unfold Mmu.write. rewrite MmuFacts.check_prot_u32, Hw. cbn [bind].
  destruct (MemFacts.atomic_roundtrip ty addr v (Mmu.mem mmu) H1 H2) as (m' & -> & H).
  cbn [bind]. unfold Mmu.read. rewrite MmuFacts.check_prot_u32.
  unfold Mmu.prot in *. cbn [Mmu.pages Mmu.mem]. rewrite Hr. cbn [bind]. rewrite H. reflexivity.
Qed.


Module PageFacts.
Import Prot.

Lemma page_idx_step addr : page_idx (addr + PAGE_SIZE) = page_idx addr + 1.
Proof.
  unfold page_idx. replace (addr + PAGE_SIZE) with (addr + 1 * PAGE_SIZE) by lia.
  rewrite Z.div_add by (unfold PAGE_SIZE; lia). reflexivity.
Qed.

Lemma set_pages_spec pages p addr n x :
  set_pages pages p addr n x =
  if (page_idx addr <=? x) && (x <? page_idx addr + Z.of_nat n) then p else pages x.
Proof.
  revert pages addr; induction n as [|n IH]; intros pages addr; cbn [set_pages].
  - destruct (Z.leb_spec (page_idx addr) x), (Z.ltb_spec x (page_idx addr + Z.of_nat 0));
      cbn; auto; lia.
  - rewrite IH, page_idx_step. unfold upd.
    destruct (Z.leb_spec (page_idx addr + 1) x), (Z.leb_spec (page_idx addr) x),
      (Z.ltb_spec x (page_idx addr + 1 + Z.of_nat n)),
      (Z.ltb_spec x (page_idx addr + Z.of_nat (S n))), (Z.eqb_spec x (page_idx addr));
      cbn; auto; lia.
Qed.

Lemma check_pages_ok pages req addr n :
  (forall j, 0 <= j < Z.of_nat n -> contains (pages (page_idx addr + j)) req = true) ->
  check_pages pages req addr n = ROk tt.
Proof.
  revert addr; induction n as [|n IH]; intros addr H; cbn [check_pages]; [reflexivity|].
  rewrite <- (Z.add_0_r (page_idx addr)), H by lia. apply IH.
  intros j Hj. rewrite page_idx_step, <- Z.add_assoc. apply H. lia.
Qed.

Lemma steps_spec start end_ :
  Z.of_nat (steps start end_) = if start <=? end_ then (end_ - start) / PAGE_SIZE + 1 else 0.
Proof.
  unfold steps. destruct (Z.leb_spec start end_); [|reflexivity].
  assert (0 <= (end_ - start) / PAGE_SIZE) by (apply Z.div_pos; unfold PAGE_SIZE; lia). lia.
Qed.
End PageFacts.

(** [set_prot] over [start..=end] sets exactly the pages from the page of
    [start] to that page plus [(end - start) / PAGE_SIZE], and nothing
    when [start > end]; every other page keeps its protection. *)
Theorem set_prot_pages pages start end_ p x :
  Prot.set_prot pages start end_ p x =
  if (start <=? end_) && (Prot.page_idx start <=? x) &&
     (x <=? Prot.page_idx start + (end_ - start) / PAGE_SIZE)
  then p else pages x.
Proof.
  unfold Prot.set_prot. rewrite PageFacts.set_pages_spec, PageFacts.steps_spec.
  destruct (Z.leb_spec start end_); cbn [andb].
  - destruct (Z.leb_spec (Prot.page_idx start) x),
      (Z.ltb_spec x (Prot.page_idx start + ((end_ - start) / PAGE_SIZE + 1))),
      (Z.leb_spec x (Prot.page_idx start + (end_ - start) / PAGE_SIZE)); cbn; auto; lia.
  - destruct (Z.leb_spec (Prot.page_idx start) x), (Z.ltb_spec x (Prot.page_idx start + 0));
      cbn; auto; lia.
Qed.

(** After [set_prot] of a range to [p], [check_prot] of the same range
    succeeds for every request contained in [p]. *)
Theorem set_prot_then_check_prot pages start end_ p req :
  Prot.contains p req = true ->
  Prot.check_prot (Prot.set_prot pages start end_ p) start end_ req = ROk tt.
Proof.
  intros Hp. unfold Prot.check_prot. apply PageFacts.check_pages_ok.
  intros j Hj. unfold Prot.set_prot. rewrite PageFacts.set_pages_spec.
  destruct (Z.leb_spec (Prot.page_idx start) (Prot.page_idx start + j)),
    (Z.ltb_spec (Prot.page_idx start + j) (Prot.page_idx start + Z.of_nat (Prot.steps start end_)));
    cbn; try lia. exact Hp.
Qed.

(** When [check_prot] fails, the error is [PageFault(missing)] for an
    address [x] of the range that it visited: [missing] is non-empty,
    shares no bit with the page's protection, and together with the bits
    the page does grant makes up the request. *)
Theorem check_prot_fault_missing_bits pages start end_ req err :
  0 <= req <= ALL_PROT -> (forall i, 0 <= pages i <= ALL_PROT) ->
  Prot.check_prot pages start end_ req = RErr err ->
  exists x missing, start <= x <= end_ /\ err = PageFault missing /\
    missing <> 0 /\
    Z.land missing (pages (Prot.page_idx x)) = 0 /\
    Z.lor missing (Z.land (pages (Prot.page_idx x)) req) = req.
Proof.
  intros Hq Hp H. destruct (ProtFacts.check_prot_fault _ _ _ _ _ H) as (x & Hx & Hc & He).
  exists x, (Z.land (Z.lxor (pages (Prot.page_idx x)) ALL_PROT) req).
  split; [exact Hx|]. split; [exact He|].
  specialize (Hp (Prot.page_idx x)). revert Hc Hp.
  generalize (pages (Prot.page_idx x)). intros r Hc Hp.
  unfold ALL_PROT in *.
  assert (r = 0 \/ r = 1 \/ r = 2 \/ r = 3 \/ r = 4 \/ r = 5 \/ r = 6 \/ r = 7) as Hr by lia.
  assert (req = 0 \/ req = 1 \/ req = 2 \/ req = 3 \/ req = 4 \/ req = 5 \/ req = 6 \/ req = 7)
    as Hr' by lia.
  destruct_or! Hr; destruct_or! Hr'; subst; vm_compute in Hc; try discriminate Hc;
    vm_compute; repeat split; discriminate.
Qed.


Module MemoryRsFacts.
Lemma validate_addr_spec m size addr prot :
  0 <= addr -> 0 < size ->
  Memory.validate_addr m size addr prot =
  if BITS_MAX <? addr + size then RErr (InvalidAddr size addr)
  else if addr =? 0 then
    (if Prot.contains (Memory.pages m 0) prot then ROk tt
     else RErr (Shared (PageFault (Z.land (Z.lxor (Memory.pages m 0) ALL_PROT) prot))))
  else ROk tt.
Proof.
  intros H0 Hs. unfold Memory.validate_addr, checked_add.
  destruct (Z.eqb_spec size 0); [lia|].
  destruct (Z.leb_spec (addr + size) BITS_MAX), (Z.ltb_spec BITS_MAX (addr + size)); try lia;
    [|reflexivity].
  unfold Memory.check_prot, IntoRange.of_range, Prot.check_prot, Prot.steps; cbn [fst snd].
  destruct (Z.eqb_spec addr 0) as [->|Ha].
  - replace (if 0 <=? saturating_sub 0 1 then _ else _) with 1%nat by reflexivity.
    cbn [Prot.check_pages]. change (Prot.page_idx 0) with 0.
    destruct (Prot.contains _ _); reflexivity.
  - unfold saturating_sub. destruct (Z.leb_spec addr (Z.max 0 (addr - 1))); [lia|]. reflexivity.
Qed.

Lemma from_be_bytes_rev_le n v : from_be_bytes (rev (le_bytes n v)) = v mod 2 ^ (8 * Z.of_nat n).
Proof. unfold from_be_bytes. rewrite rev_involutive. apply StackFacts.from_le_bytes_le_bytes. Qed.
End MemoryRsFacts.

(** ** C6: the range check of typed accesses in both memories *)

(** Claim C6 (counterexample): in [memory.rs], the memory the emulator
    uses, a 4-byte access at [0xFFFFFFFC] (last byte [0xFFFFFFFF])
    fails the range check with [InvalidAddr(4, 0xFFFFFFFC)], while the
    atomic memory of [mmu/memory.rs] accepts it. *)
Lemma typed_access_last_word_counterexample :
  Memory.read U32 0xFFFFFFFC Emulator.memory_new = RErr (InvalidAddr 4 0xFFFFFFFC) /\
  Memory.write U32 0xFFFFFFFC 0x12345678 Emulator.memory_new = RErr (InvalidAddr 4 0xFFFFFFFC) /\
  AtomicMemory.read U32 0xFFFFFFFC (fun _ => 0) = ROk 0.
Proof. vm_compute. split; [reflexivity | split; reflexivity]. Qed.

(** C6 (amended): the two memories draw the line differently.  In the
    atomic memory of [mmu/memory.rs] a typed [N]-byte read or write
    fails with [Overflow] exactly when [addr + N - 1] exceeds
    [u32::MAX], and fails with nothing else; so a 4-byte access at
    [0xFFFFFFFC] passes.  In [memory.rs] ([validate_addr]:
    [addr.checked_add(size)]) it fails with [InvalidAddr(N, addr)]
    exactly when [addr + N] exceeds [u32::MAX], so the same access
    fails; that memory never fails a typed access with [Overflow]. *)
Theorem typed_access_range_errors (t : IntTy) (addr v : Z) (am : Z -> Z) (m : Memory.t) :
  0 <= addr ->
  (AtomicMemory.write t addr v am = RErr Overflow <-> BITS_MAX < addr + size_of t - 1) /\
  (AtomicMemory.read t addr am = RErr Overflow <-> BITS_MAX < addr + size_of t - 1) /\
  (forall e, AtomicMemory.write t addr v am = RErr e -> e = Overflow) /\
  (forall e, AtomicMemory.read t addr am = RErr e -> e = Overflow) /\
  (AtomicMemory.write t addr v am <> RPanic /\ AtomicMemory.read t addr am <> RPanic) /\
  (Memory.write t addr v m = RErr (InvalidAddr (size_of t) addr) <-> BITS_MAX < addr + size_of t) /\
  (Memory.read t addr m = RErr (InvalidAddr (size_of t) addr) <-> BITS_MAX < addr + size_of t) /\
  (Memory.write t addr v m <> RErr (Shared Overflow) /\ Memory.read t addr m <> RErr (Shared Overflow)).
Proof.
  intros H0. pose proof (AtomicMemoryProps.size_of_range t) as Hsz.
  split; [| split; [| split; [| split; [| split]]]].
  1-5: unfold AtomicMemory.write, AtomicMemory.read;
    rewrite AtomicMemoryProps.size_minus_one; unfold checked_add;
    destruct (Z.leb_spec (addr + (size_of t - 1)) BITS_MAX) as [H|H];
    repeat split; intros; try discriminate; try congruence; try lia.
  unfold Memory.write, Memory.read.
  rewrite !MemoryRsFacts.validate_addr_spec by lia.
  destruct (Z.ltb_spec BITS_MAX (addr + size_of t)) as [H|H].
  - cbn. repeat split; intros; try reflexivity; try lia; discriminate.
  - destruct (addr =? 0); [destruct (Prot.contains _ _); destruct (Prot.contains _ _)|];
      cbn; repeat split; intros; try discriminate; try lia.
Qed.

(** [memory::Memory::write] and [read] through [validate_addr]: from
    address 1 on, the pages are never consulted (the range [addr..addr]
    is empty); the access stores or loads the big-endian bytes when
    [addr + size <= u32::MAX] and fails with [InvalidAddr(size, addr)]
    otherwise. At address 0 the access faults when page 0 lacks the
    required bit. *)
Theorem memory_rs_validate_addr ty addr v m :
  (1 <= addr ->
   (addr + size_of ty <= BITS_MAX ->
      Memory.write ty addr v m =
        ROk (Memory.with_data m (Memory.store_bytes (Memory.data m) addr
               (rev (le_bytes (Z.to_nat (size_of ty)) v)))) /\
      Memory.read ty addr m =
        ROk (from_be_bytes (bytes_at (Memory.data m) addr (Z.to_nat (size_of ty))))) /\
   (BITS_MAX < addr + size_of ty ->
      Memory.write ty addr v m = RErr (InvalidAddr (size_of ty) addr) /\
      Memory.read ty addr m = RErr (InvalidAddr (size_of ty) addr))) /\
  (Prot.contains (Memory.pages m 0) WRITE = false ->
     Memory.write ty 0 v m =
       RErr (Shared (PageFault (Z.land (Z.lxor (Memory.pages m 0) ALL_PROT) WRITE)))) /\
  (Prot.contains (Memory.pages m 0) READ = false ->
     Memory.read ty 0 m =
       RErr (Shared (PageFault (Z.land (Z.lxor (Memory.pages m 0) ALL_PROT) READ)))).
Proof.
  pose proof (AtomicMemoryProps.size_of_range ty).
  unfold Memory.write, Memory.read.
  split; [|split].
  - intros Ha. rewrite !MemoryRsFacts.validate_addr_spec by lia.
    destruct (Z.eqb_spec addr 0); [lia|].
    split; intros Hb.
    + destruct (Z.ltb_spec BITS_MAX (addr + size_of ty)); [lia|]. split; reflexivity.
    + destruct (Z.ltb_spec BITS_MAX (addr + size_of ty)); [|lia]. split; reflexivity.
  - intros Hc. rewrite MemoryRsFacts.validate_addr_spec by lia.
    destruct (Z.ltb_spec BITS_MAX (0 + size_of ty)); [unfold BITS_MAX in *; lia|].
    rewrite Z.eqb_refl, Hc. reflexivity.
  - intros Hc. rewrite MemoryRsFacts.validate_addr_spec by lia.
    destruct (Z.ltb_spec BITS_MAX (0 + size_of ty)); [unfold BITS_MAX in *; lia|].
    rewrite Z.eqb_refl, Hc. reflexivity.
Qed.

(** A successful [memory::Memory::write] followed by a [read] of the
    same type at the same address returns the value written, truncated
    to the type's width (at address 0 when page 0 is readable), and the
    write leaves the pages unchanged. *)
Theorem memory_rs_write_read_roundtrip ty addr v m m' :
  0 <= addr -> Memory.write ty addr v m = ROk m' ->
  (1 <= addr \/ Prot.contains (Memory.pages m 0) READ = true) ->
  Memory.read ty addr m' = ROk (v mod 2 ^ (8 * size_of ty)) /\ Memory.pages m' = Memory.pages m.
Proof.
  pose proof (AtomicMemoryProps.size_of_range ty).
  intros H0 Hw Hr. unfold Memory.write in Hw.
  rewrite MemoryRsFacts.validate_addr_spec in Hw by lia.
  destruct (Z.ltb_spec BITS_MAX (addr + size_of ty)); [discriminate Hw|].
  assert (Hw' : m' = Memory.with_data m (Memory.store_bytes (Memory.data m) addr
                       (rev (le_bytes (Z.to_nat (size_of ty)) v)))).
  { destruct (Z.eqb addr 0); [destruct (Prot.contains (Memory.pages m 0) WRITE)|];
      cbn [bind] in Hw; try discriminate Hw; injection Hw as <-; reflexivity. }
  subst m'. split; [|reflexivity].
  unfold Memory.read. rewrite MemoryRsFacts.validate_addr_spec by lia.
  destruct (Z.ltb_spec BITS_MAX (addr + size_of ty)); [lia|].
  cbn [Memory.with_data Memory.pages Memory.data].
  replace (if addr =? 0 then _ else ROk tt) with (@ROk unit MemoryError tt).
  - cbn [bind].
    replace (Z.to_nat (size_of ty)) with (length (rev (le_bytes (Z.to_nat (size_of ty)) v)))
      at 2 by (rewrite length_rev, le_bytes_length; reflexivity).
    rewrite StackFacts.bytes_at_store_bytes, MemoryRsFacts.from_be_bytes_rev_le, Z2Nat.id by lia.
    reflexivity.
  - destruct (Z.eqb_spec addr 0) as [->|]; [|reflexivity].
    destruct Hr as [Hr|Hr]; [lia|]. rewrite Hr. reflexivity.
Qed.

Module ProgramFacts.
Lemma pages_count len :
  0 <= len <= 2 ^ 32 - PAGE_SIZE ->
  let size := Emulator.next_multiple_of len PAGE_SIZE in
  0 <= size < 2 ^ 32 /\
  0 <= saturating_sub size 1 /\
  saturating_sub size 1 / PAGE_SIZE + 1 = Z.max 1 ((len + PAGE_SIZE - 1) / PAGE_SIZE).
Proof.
  intros Hl size. unfold size, Emulator.next_multiple_of, saturating_sub, PAGE_SIZE in *.
  pose proof (Z.div_mod len 4096 ltac:(lia)).
  pose proof (Z.mod_pos_bound len 4096 ltac:(lia)).
  destruct (Z.eqb_spec (len mod 4096) 0) as [Hr|Hr].
  - pose proof (Z.div_mod (Z.max 0 (len - 1)) 4096 ltac:(lia)).
    pose proof (Z.mod_pos_bound (Z.max 0 (len - 1)) 4096 ltac:(lia)).
    pose proof (Z.div_mod (len + 4096 - 1) 4096 ltac:(lia)).
    pose proof (Z.mod_pos_bound (len + 4096 - 1) 4096 ltac:(lia)).
    lia.
  - pose proof (Z.div_mod (Z.max 0 (len + (4096 - len mod 4096) - 1)) 4096 ltac:(lia)).
    pose proof (Z.mod_pos_bound (Z.max 0 (len + (4096 - len mod 4096) - 1)) 4096 ltac:(lia)).
    pose proof (Z.div_mod (len + 4096 - 1) 4096 ltac:(lia)).
    pose proof (Z.mod_pos_bound (len + 4096 - 1) 4096 ltac:(lia)).
    lia.
Qed.
End ProgramFacts.

(** [Emulator::write_program] on a fresh memory, for a program that
    leaves room for its last page: the program's bytes sit at
    [0..len], every other byte is 0, the pages covering the program
    (at least one, also for an empty program) are [Execute | Read], and
    all others keep [Read | Write]. *)
Theorem write_program_layout program :
  Z.of_nat (length program) <= 2 ^ 32 - PAGE_SIZE ->
  exists m, Emulator.write_program Emulator.memory_new program = ROk m /\
    bytes_at (Memory.data m) 0 (length program) = program /\
    (forall x, x < 0 \/ Z.of_nat (length program) <= x -> Memory.data m x = 0) /\
    (forall i, Memory.pages m i =
       if (0 <=? i) && (i <? Z.max 1 ((Z.of_nat (length program) + PAGE_SIZE - 1) / PAGE_SIZE))
       then Z.lor EXECUTE READ else Z.lor READ WRITE).
Proof.
  intros Hl. assert (Hl' : Z.of_nat (length program) < 2 ^ 32) by (unfold PAGE_SIZE in Hl; lia).
  unfold Emulator.write_program. cbv zeta.
  rewrite (Z.mod_small (Z.of_nat (length program))) by lia. rewrite Z.eqb_refl. cbn [negb].
  destruct (ProgramFacts.pages_count (Z.of_nat (length program)) ltac:(lia)) as (Hs & He & Hc).
  rewrite (Z.mod_small (Emulator.next_multiple_of _ _)) by lia.
  unfold Memory.change_prot. cbn [bind].
  eexists; split; [reflexivity|].
  cbn [Memory.data Memory.pages Memory.with_data Emulator.memory_new].
  split; [|split].
  - apply StackFacts.bytes_at_store_bytes.
  - intros x Hx. rewrite StackFacts.store_bytes_out by lia. reflexivity.
  - intros i. unfold IntoRange.of_range_to, Prot.set_prot. cbn [fst snd].
    rewrite PageFacts.set_pages_spec, PageFacts.steps_spec.
    destruct (Z.leb_spec 0 (saturating_sub (Emulator.next_multiple_of (Z.of_nat (length program)) PAGE_SIZE) 1));
      [|lia].
    rewrite Z.sub_0_r, Hc. change (Prot.page_idx 0) with 0. rewrite Z.add_0_l. reflexivity.
Qed.



(** From a 32-register file of u32 values with [sp >= 4] (below 4 the
    slice [mem[sp - 4..sp]] panics), [call imm] then [ret]: [call]
    stores the old [ra] big-endian just
    below [sp], lowers [sp] by 4, sets [ra] to the next instruction and
    jumps; the following [ret] returns to that instruction with the
    register file restored, including the old [ra] and [sp]. *)
Theorem call_ret_roundtrip now steady target c m stop k :
  length (Cpu.gp c) = 32%nat -> Forall (fun v => 0 <= v < 2 ^ 32) (Cpu.gp c) ->
  4 <= sp (Cpu.gp c) ->
  let m1 := Memory.with_data m (Memory.store_bytes (Memory.data m) (sp (Cpu.gp c) - 4)
                                  (be_bytes32 (ra (Cpu.gp c)))) in
  exists c1,
    Cpu.process now steady (call_imm_inst target) c m stop k = ROk (c1, m1, stop, 3) /\
    Cpu.pc c1 = target /\ ra (Cpu.gp c1) = wrapping_add (Cpu.pc c) 8 /\
    sp (Cpu.gp c1) = sp (Cpu.gp c) - 4 /\
    Cpu.process now steady ret_inst c1 m1 stop 3 =
      ROk (Cpu.mk (Cpu.gp c) (Cpu.gfx c) (wrapping_add (Cpu.pc c) 8) (Cpu.clk c), m1, stop, 2).
Proof.
  intros Hl Hf Hs m1.
  destruct c as [r g p ck]. cbn [Cpu.gp Cpu.gfx Cpu.pc Cpu.clk] in *.
  assert (Hsp : sp r <= BITS_MAX).
  { unfold sp. pose proof (LifoFacts.field_bound (fun v => 0 <= v < 2 ^ 32) r 2 Hf ltac:(lia)) as Hb.
    cbv beta in Hb. unfold BITS_MAX. lia. }
  assert (Hra : 0 <= ra r < 2 ^ 32).
  { unfold ra. exact (LifoFacts.field_bound (fun v => 0 <= v < 2 ^ 32) r 1 Hf ltac:(lia)). }
  assert (Hw : wrapping_sub (sp r) 4 = sp r - 4)
    by (unfold wrapping_sub, BITS_MAX in *; apply Z.mod_small; lia).
  eexists. split; [|split; [|split; [|split]]].
  - unfold Cpu.process, call_imm_inst.
    cbv beta iota zeta delta [Cpu.arm Instruction.mode Instruction.dst Instruction.op_code
      Instruction.a Instruction.b Instruction.imm].
    cbn [Cpu.gp Cpu.pc Cpu.gfx Cpu.clk]. rewrite Hw.
    destruct (Z.ltb_spec (sp r) (sp r - 4)); [lia|].
    replace (sp r - (sp r - 4) =? 4) with true by (symmetry; apply Z.eqb_eq; lia).
    reflexivity.
  - reflexivity.
  - cbn [Cpu.gp]. unfold ra, field.
    rewrite list_lookup_insert_eq by (rewrite length_insert; lia). reflexivity.
  - cbn [Cpu.gp]. unfold sp, field.
    rewrite list_lookup_insert_ne by lia.
    rewrite list_lookup_insert_eq by lia. reflexivity.
  - unfold Cpu.process, ret_inst.
    cbv beta iota zeta delta [Cpu.arm Instruction.mode Instruction.dst Instruction.op_code
      Instruction.a Instruction.b Instruction.imm].
    cbn [Cpu.gp Cpu.pc Cpu.gfx Cpu.clk].
    assert (Hsp1 : sp (<[1%nat:=wrapping_add p 8]> (<[2%nat:=sp r - 4]> r)) = sp r - 4).
    { unfold sp, field. rewrite list_lookup_insert_ne by lia.
      rewrite list_lookup_insert_eq by lia. reflexivity. }
    rewrite Hsp1.
    destruct (Z.ltb_spec BITS_MAX (sp r - 4 + 4)); [lia|].
    assert (Hb : bytes_at (Memory.data m1) (sp r - 4) 4 = be_bytes32 (ra r)).
    { unfold m1. cbn [Memory.data Memory.with_data].
      change 4%nat with (length (be_bytes32 (ra r))).
      apply StackFacts.bytes_at_store_bytes. }
    rewrite Hb, StackFacts.from_be_bytes_be_bytes32 by exact Hra.
    replace (wrapping_add (sp r - 4) 4) with (sp r)
      by (unfold wrapping_add, BITS_MAX in *; rewrite Z.mod_small; lia).
    assert (Hra1 : ra (<[1%nat:=wrapping_add p 8]> (<[2%nat:=sp r - 4]> r)) = wrapping_add p 8).
    { unfold ra, field. rewrite list_lookup_insert_eq by (rewrite length_insert; lia).
      reflexivity. }
    rewrite Hra1.
    assert (Hr : <[1%nat:=ra r]> (<[2%nat:=sp r]> (<[1%nat:=wrapping_add p 8]> (<[2%nat:=sp r - 4]> r))) = r).
    { rewrite (list_insert_insert_ne _ 2 1) by lia.
      rewrite !list_insert_insert_eq.
      rewrite (list_insert_id _ 2 (sp r)) by (apply LifoFacts.field_lookup; lia).
      apply list_insert_id. apply LifoFacts.field_lookup; lia. }
    rewrite Hr. reflexivity.
Qed.


Module RegFacts.
Lemma set_reg_insert r x v :
  1 <= x -> (Z.to_nat x < length r)%nat -> set_reg r x v = ROk (<[Z.to_nat x := v]> r).
Proof.
  intros H1 H2. unfold set_reg. destruct (Z.eqb_spec x 0); [lia|].
  destruct (lookup_lt_is_Some_2 r (Z.to_nat x) H2) as [y ->]. reflexivity.
Qed.

Lemma set_insert r x v :
  1 <= x -> (Z.to_nat x < length r)%nat -> Cpu.set r x v = ROk (<[Z.to_nat x := v]> r).
Proof. intros H1 H2. unfold Cpu.set. rewrite set_reg_insert by assumption. reflexivity. Qed.
End RegFacts.

Module EffectFacts.
Lemma arm_mem now steady i c m stop k c' m' stop' k' fl :
  Cpu.arm now steady i (c, m, stop, k) = ROk ((c', m', stop', k'), fl) ->
  Memory.pages m' = Memory.pages m /\
  (m' = m \/ (Instruction.mode i = 3 /\ (Instruction.op_code i = 0 \/ Instruction.op_code i = 2))).
Proof.
  destruct i as [mode dst op a b imm]; intros H.
  cbv beta iota delta [Instruction.mode Instruction.op_code].
  unfold_arm H. repeat step_res H.
  all: injection H; intros; subst; cbn [Memory.pages Memory.with_data].
  all: split; [reflexivity|].
  all: first [left; reflexivity | right; split; [reflexivity | first [left; reflexivity | right; reflexivity]]].
Qed.

Lemma process_mem now steady i c m stop k c' m' stop' k' :
  Cpu.process now steady i c m stop k = ROk (c', m', stop', k') ->
  Memory.pages m' = Memory.pages m /\
  (m' = m \/ (Instruction.mode i = 3 /\ (Instruction.op_code i = 0 \/ Instruction.op_code i = 2))).
Proof.
  unfold Cpu.process. intros H.
  apply bind_ok in H as ([[[[c1 m1] stop1] k1] fl] & Harm & H).
  pose proof (arm_mem _ _ _ _ _ _ _ _ _ _ _ _ Harm) as Hm.
  destruct fl; cbv beta iota in H; injection H as <- <- <- <-; exact Hm.
Qed.
End EffectFacts.

(** [Cpu::process] never changes page protections, and changes memory
    bytes only for [push] and [call]. *)
Theorem process_memory_effects now steady i c m stop k c' m' stop' k' :
  Cpu.process now steady i c m stop k = ROk (c', m', stop', k') ->
  Memory.pages m' = Memory.pages m /\
  (m' = m \/ (Instruction.mode i = 3 /\ (Instruction.op_code i = 0 \/ Instruction.op_code i = 2))).
Proof. apply EffectFacts.process_mem. Qed.

(** A run of [Emulator::run] that ends without an error leaves every
    page protection as it was, whatever the instruction fetcher. *)
Theorem run_preserves_pages next_inst now steady fuel e e' :
  Emulator.run next_inst (Cpu.process now steady) fuel e = Some (ROk e') ->
  Memory.pages (Emulator.mem e') = Memory.pages (Emulator.mem e).
Proof.
  revert e; induction fuel as [|fuel IH]; intros e H; [discriminate H|].
  cbn [Emulator.run] in H.
  destruct (next_inst e) as [inst| |]; try discriminate H.
  destruct (Prot.check_prot _ _ _ _); try discriminate H.
  destruct (Cpu.process now steady inst (Emulator.cpu e) (Emulator.mem e) false 1)
    as [[[[c' m'] stop] k]| |] eqn:Hp; try discriminate H.
  destruct (EffectFacts.process_mem _ _ _ _ _ _ _ _ _ _ _ Hp) as [Hpg _].
  destruct stop.
  - injection H as <-. exact Hpg.
  - rewrite (IH _ H). exact Hpg.
Qed.

(** [rdclk a, b] with two distinct writable registers stores the high
    and low 32-bit halves of the clock, so [a * 2^32 + b] equals the
    clock, and advances [pc]. *)
Theorem rdclk_roundtrip now steady c m stop k dst a b imm :
  1 <= a < 32 -> 1 <= b < 32 -> a <> b -> length (Cpu.gp c) = 32%nat ->
  0 <= Cpu.clk c < 2 ^ 64 ->
  exists c', Cpu.process now steady (Instruction.mk 0 dst 10 a b imm) c m stop k = ROk (c', m, stop, k) /\
    field (Cpu.gp c') (Z.to_nat a) * 2 ^ 32 + field (Cpu.gp c') (Z.to_nat b) = Cpu.clk c /\
    Cpu.pc c' = pc_next c (Instruction.mk 0 dst 10 a b imm).
Proof.
  intros Ha Hb Hab Hl Hc.
  unfold Cpu.process.
  cbv beta iota zeta delta [Cpu.arm Instruction.mode Instruction.dst Instruction.op_code
    Instruction.a Instruction.b Instruction.imm].
  rewrite (RegFacts.set_insert (Cpu.gp c) a) by lia. cbn [bind].
  rewrite (RegFacts.set_insert (<[Z.to_nat a := Z.shiftr (Cpu.clk c) 32]> (Cpu.gp c)) b)
    by (rewrite ?length_insert; lia). cbn [bind].
  eexists. split; [reflexivity|]. split; [|reflexivity].
  cbn [Cpu.gp Cpu.with_pc Cpu.with_gp]. unfold field.
  rewrite list_lookup_insert_ne by lia.
  rewrite !list_lookup_insert_eq by (rewrite ?length_insert; lia). cbn [default].
  rewrite Z.shiftr_div_pow2 by lia. unfold MASK32.
  change (2 ^ 32 - 1) with (Z.ones 32). rewrite Z.land_ones by lia.
  pose proof (Z.div_mod (Cpu.clk c) (2 ^ 32) ltac:(lia)).
  unfold id. lia.
Qed.


(** [set_reg] then [get_reg] of the same register [1..31] gives the
    value set and leaves every other register unchanged; indices from
    32 on are rejected by both with [RegError]. *)
Theorem set_reg_get_reg r x v :
  length r = 32%nat ->
  (1 <= x < 32 -> exists r', set_reg r x v = ROk r' /\ get_reg r' x = ROk v /\
     forall y, 0 <= y -> y <> x -> get_reg r' y = get_reg r y) /\
  (32 <= x -> set_reg r x v = RErr (InvalidReg x) /\ get_reg r x = RErr (InvalidReg x)).
Proof.
  intros Hl. split.
  - intros Hx. rewrite RegFacts.set_reg_insert by lia.
    eexists; split; [reflexivity|]. split.
    + unfold get_reg. rewrite list_lookup_insert_eq by lia. reflexivity.
    + intros y Hy Hyx. unfold get_reg. rewrite list_lookup_insert_ne by lia. reflexivity.
  - intros Hx. unfold set_reg, get_reg.
    destruct (Z.eqb_spec x 0); [lia|].
    rewrite lookup_ge_None_2 by lia. split; reflexivity.
Qed.

Ltac decide_cmp :=
  repeat match goal with |- context [?x <? ?y] => destruct (Z.ltb_spec x y) end;
  repeat match goal with |- context [?x =? ?y] => destruct (Z.eqb_spec x y) end.

(** The division arms: [div] and [idiv] panic exactly when the divisor
    is 0 and the dividend is not, [rem] exactly when the divisor is 0,
    and [irem] also on [i32::MIN % -1]; [idiv] of [i32::MIN] by [-1]
    wraps to [i32::MIN] instead of panicking. *)
Theorem division_panics a b :
  0 <= a < 2 ^ 32 -> 0 <= b < 2 ^ 32 ->
  (forall f, Cpu.binop 11 = Some f -> (f a b = RPanic <-> a <> 0 /\ b = 0)) /\
  (forall f, Cpu.binop 12 = Some f -> (f a b = RPanic <-> a <> 0 /\ b = 0)) /\
  (forall f, Cpu.binop 13 = Some f -> (f a b = RPanic <-> b = 0)) /\
  (forall f, Cpu.binop 14 = Some f -> (f a b = RPanic <-> b = 0 \/ (a = 2 ^ 31 /\ b = MASK32))) /\
  (forall f, Cpu.binop 12 = Some f -> f (2 ^ 31) MASK32 = ROk (2 ^ 31)).
Proof.
  intros Ha Hb. unfold MASK32.
  split; [|split; [|split; [|split]]]; intros f Hf; injection Hf as <-; cbv zeta;
    unfold as_i32; [| | | | reflexivity];
    decide_cmp; cbn [negb andb]; split; intros Hr;
    try discriminate Hr; try lia; try reflexivity.
  all: first [exfalso; lia | split; lia | left; lia | right; split; lia].
Qed.


(** [Mmu::memwrite] and [Mmu::memcpy] skip the protection check: on a
    fresh MMU, whose pages grant nothing, the buffer is written and
    read back while the protected [read] and [write] of the same
    address still fault. *)
Theorem mmu_memwrite_ignores_protection x86 addr buf dst :
  1 <= addr <= BITS_MAX -> addr + Z.of_nat (length buf) <= 2 ^ 32 ->
  length dst = length buf ->
  match Mmu.memwrite Mmu.new addr buf with
  | ROk mmu' =>
      Mmu.pages mmu' = Mmu.pages Mmu.new /\
      Mmu.memcpy x86 mmu' addr dst = ROk buf /\
      Mmu.read U8 addr mmu' = RErr (PageFault READ) /\
      (forall v, Mmu.write U8 addr v mmu' = RErr (PageFault WRITE))
  | _ => False
  end.
Proof.
  intros Ha Hl Hd.
  assert (Hs : addr + saturating_sub (Z.of_nat (length buf)) 1 <= BITS_MAX)
    by (unfold saturating_sub, BITS_MAX in *; lia).
  assert (Hlen : (length buf <= Z.to_nat (saturating_sub (addr + saturating_sub (Z.of_nat (length buf)) 1)
                      (saturating_sub addr 1)))%nat)
    by (unfold saturating_sub; lia).
  unfold Mmu.memwrite. cbn [Mmu.mem].
  rewrite MemFacts.memwrite_ok by lia. cbn [bind].
  split; [reflexivity|]. split; [|split].
  - unfold Mmu.memcpy. cbn [Mmu.mem].
    rewrite MemFacts.memcpy_ok by (rewrite ?Hd; lia).
    rewrite MemFacts.store_zip_store_bytes by lia.
    rewrite Hd. destruct x86.
    + rewrite StackFacts.bytes_at_store_bytes. reflexivity.
    + rewrite MemFacts.load_into_spec, Hd, drop_ge by lia.
      rewrite app_nil_r. f_equal. replace (Nat.min _ _) with (length buf) by lia.
      apply StackFacts.bytes_at_store_bytes.
  - unfold Mmu.read. rewrite MmuFacts.check_prot_u32. reflexivity.
  - intros v. unfold Mmu.write. rewrite MmuFacts.check_prot_u32. reflexivity.
Qed.

(** When the fetched instruction is [hlt] (without an immediate) on an
    executable page, [Emulator::run] stops after that one instruction
    with the emulator unchanged: neither [pc] nor the clock advance. *)
Theorem run_hlt_stops next_inst now steady fuel e dst a b :
  next_inst e = ROk (Instruction.mk 0 dst 1 a b None) ->
  Prot.contains (Memory.pages (Emulator.mem e) (Prot.page_idx (Cpu.pc (Emulator.cpu e)))) EXECUTE = true ->
  Emulator.run next_inst (Cpu.process now steady) (S fuel) e = Some (ROk e).
Proof.
  intros Hn Hx. cbn [Emulator.run]. rewrite Hn.
  unfold Prot.check_prot, Prot.steps. rewrite Z.leb_refl, Z.sub_diag. cbn [Prot.check_pages].
  rewrite Hx. destruct e as [c m]. reflexivity.
Qed.



(** Witness for [atomic_write_read_roundtrip]. *)
Lemma atomic_write_read_roundtrip_witness : 1 <= 0x1000 /\ 0x1000 + size_of U32 - 1 <= BITS_MAX /\
  match AtomicMemory.write U32 0x1000 0x12345678 (fun _ => 0) with
  | ROk m' => AtomicMemory.read U32 0x1000 m' = ROk (0x12345678 mod 2 ^ (8 * size_of U32))
  | _ => False
  end.
Proof.
  split; [lia|]. split; [unfold BITS_MAX; cbn; lia|].
  apply (atomic_write_read_roundtrip U32 0x1000 0x12345678 (fun _ => 0)); unfold BITS_MAX; cbn; lia.
Defined.

(** Witness for [memwrite_memcpy_roundtrip]. *)
Lemma memwrite_memcpy_roundtrip_witness :
  match AtomicMemory.memwrite (fun _ => 0) 16 [1; 2; 3] with
  | ROk m' => AtomicMemory.memcpy true m' 16 [0; 0; 0] = ROk [1; 2; 3]
  | _ => False
  end.
Proof.
  apply (memwrite_memcpy_roundtrip true (fun _ => 0) 16 [1; 2; 3] [0; 0; 0]);
    [unfold BITS_MAX; lia | cbn; lia | reflexivity].
Defined.

(** Witness for [memwrite_memcpy_at_zero]. *)
Lemma memwrite_memcpy_at_zero_witness :
  (exists m', AtomicMemory.memwrite (fun _ => 0) 0 [1; 2; 3] = ROk m' /\
     forall x, m' x = if (0 <=? x) && (x <? Z.of_nat (length [1; 2; 3]) - 1)
                      then nth (Z.to_nat x) [1; 2; 3] 0 else 0) /\
  AtomicMemory.memcpy true (fun _ => 0) 0 [9; 9; 9] = ROk (bytes_at (fun _ => 0) 0 3) /\
  AtomicMemory.memcpy false (fun _ => 0) 0 [9; 9; 9] = ROk (bytes_at (fun _ => 0) 0 2 ++ [9]).
Proof.
  apply (memwrite_memcpy_at_zero (fun _ => 0) [1; 2; 3] [9; 9; 9]); cbn; lia.
Defined.

(** Witness for [memwrite_memcpy_overflow_iff]. *)
Lemma memwrite_memcpy_overflow_iff_witness :
  (AtomicMemory.memwrite (fun _ => 0) 0xFFFFFFFF [1; 2] = RErr Overflow <->
     BITS_MAX < 0xFFFFFFFF + saturating_sub (Z.of_nat (length [1; 2])) 1) /\
  (AtomicMemory.memcpy false (fun _ => 0) 0xFFFFFFFF [1; 2] = RErr Overflow <->
     BITS_MAX < 0xFFFFFFFF + saturating_sub (Z.of_nat (length [1; 2])) 1) /\
  (forall e, AtomicMemory.memwrite (fun _ => 0) 0xFFFFFFFF [1; 2] = RErr e -> e = Overflow) /\
  (forall e, AtomicMemory.memcpy false (fun _ => 0) 0xFFFFFFFF [1; 2] = RErr e -> e = Overflow) /\
  AtomicMemory.memwrite (fun _ => 0) 0xFFFFFFFF [1; 2] <> RPanic /\
  AtomicMemory.memcpy false (fun _ => 0) 0xFFFFFFFF [1; 2] <> RPanic.
Proof. apply (memwrite_memcpy_overflow_iff false (fun _ => 0) 0xFFFFFFFF [1; 2]); cbn; lia. Defined.

(** Witness for [mmu_write_read_roundtrip]. *)
Lemma mmu_write_read_roundtrip_witness :
  match Mmu.write U32 0x1000 0xCAFE (Mmu.mk (fun _ => Z.lor READ WRITE) (fun _ => 0)) with
  | ROk mmu' => Mmu.read U32 0x1000 mmu' = ROk (0xCAFE mod 2 ^ (8 * size_of U32))
  | _ => False
  end.
Proof.
  apply (mmu_write_read_roundtrip U32 0x1000 0xCAFE (Mmu.mk (fun _ => Z.lor READ WRITE) (fun _ => 0)));
    [lia | unfold BITS_MAX; cbn; lia | reflexivity | reflexivity].
Defined.

(** Witness for [set_prot_then_check_prot]. *)
Lemma set_prot_then_check_prot_witness :
  Prot.check_prot (Prot.set_prot (fun _ => 0) 4000 9000 (Z.lor READ EXECUTE)) 4000 9000 READ = ROk tt.
Proof. apply (set_prot_then_check_prot (fun _ => 0) 4000 9000 (Z.lor READ EXECUTE) READ). reflexivity. Defined.

(** Witness for [check_prot_fault_missing_bits]. *)
Lemma check_prot_fault_missing_bits_witness :
  Prot.check_prot (fun i => if i =? 0 then READ else 0) 4096 4100 READ = RErr (PageFault READ) /\
  exists x missing, 4096 <= x <= 4100 /\ PageFault READ = PageFault missing /\
    missing <> 0 /\
    Z.land missing ((fun i => if i =? 0 then READ else 0) (Prot.page_idx x)) = 0 /\
    Z.lor missing (Z.land ((fun i => if i =? 0 then READ else 0) (Prot.page_idx x)) READ) = READ.
Proof.
  split; [vm_compute; reflexivity|].
  apply (check_prot_fault_missing_bits (fun i => if i =? 0 then READ else 0) 4096 4100 READ).
  - unfold READ, ALL_PROT; lia.
  - intros i. destruct (i =? 0); unfold READ, ALL_PROT; lia.
  - vm_compute. reflexivity.
Defined.

(** Witness for [memory_rs_write_read_roundtrip]. *)
Lemma memory_rs_write_read_roundtrip_witness :
  exists m', Memory.write U32 16 0x12345678 Emulator.memory_new = ROk m' /\
    Memory.read U32 16 m' = ROk (0x12345678 mod 2 ^ (8 * size_of U32)) /\
    Memory.pages m' = Memory.pages Emulator.memory_new.
Proof.
  eexists. split; [reflexivity|].
  apply (memory_rs_write_read_roundtrip U32 16 0x12345678 Emulator.memory_new); [lia | reflexivity | left; lia].
Defined.

(** Witness for [write_program_layout]. *)
Lemma write_program_layout_witness :
  exists m, Emulator.write_program Emulator.memory_new [7; 8; 9] = ROk m /\
    bytes_at (Memory.data m) 0 (length [7; 8; 9]) = [7; 8; 9] /\
    (forall x, x < 0 \/ Z.of_nat (length [7; 8; 9]) <= x -> Memory.data m x = 0) /\
    (forall i, Memory.pages m i =
       if (0 <=? i) && (i <? Z.max 1 ((Z.of_nat (length [7; 8; 9]) + PAGE_SIZE - 1) / PAGE_SIZE))
       then Z.lor EXECUTE READ else Z.lor READ WRITE).
Proof. apply (write_program_layout [7; 8; 9]). cbn; unfold PAGE_SIZE; lia. Defined.

(** Witness for [call_ret_roundtrip]. *)
Lemma call_ret_roundtrip_witness :
  exists c1,
    Cpu.process 0 false (call_imm_inst 0x400) Cpu.new Emulator.memory_new false 1 =
      ROk (c1, Memory.with_data Emulator.memory_new
                 (Memory.store_bytes (Memory.data Emulator.memory_new) (sp (Cpu.gp Cpu.new) - 4)
                    (be_bytes32 (ra (Cpu.gp Cpu.new)))), false, 3) /\
    Cpu.pc c1 = 0x400 /\ ra (Cpu.gp c1) = wrapping_add (Cpu.pc Cpu.new) 8 /\
    sp (Cpu.gp c1) = sp (Cpu.gp Cpu.new) - 4 /\
    Cpu.process 0 false ret_inst c1
      (Memory.with_data Emulator.memory_new
         (Memory.store_bytes (Memory.data Emulator.memory_new) (sp (Cpu.gp Cpu.new) - 4)
            (be_bytes32 (ra (Cpu.gp Cpu.new))))) false 3 =
      ROk (Cpu.mk (Cpu.gp Cpu.new) (Cpu.gfx Cpu.new) (wrapping_add (Cpu.pc Cpu.new) 8) (Cpu.clk Cpu.new),
           Memory.with_data Emulator.memory_new
             (Memory.store_bytes (Memory.data Emulator.memory_new) (sp (Cpu.gp Cpu.new) - 4)
                (be_bytes32 (ra (Cpu.gp Cpu.new)))), false, 2).
Proof.
  apply (call_ret_roundtrip 0 false 0x400 Cpu.new Emulator.memory_new false 1).
  - reflexivity.
  - apply (bool_decide_unpack _). vm_compute. exact I.
  - apply Z.leb_le. vm_compute. reflexivity.
Defined.

(** Witness for [process_memory_effects]. *)
Lemma process_memory_effects_witness :
  exists c' m' stop' k',
    Cpu.process 0 false (push_inst 5) Cpu.new Emulator.memory_new false 1 = ROk (c', m', stop', k') /\
    Memory.pages m' = Memory.pages Emulator.memory_new /\
    (m' = Emulator.memory_new \/ (Instruction.mode (push_inst 5) = 3 /\
       (Instruction.op_code (push_inst 5) = 0 \/ Instruction.op_code (push_inst 5) = 2))).
Proof.
  do 4 eexists. split; [reflexivity|].
  eapply (process_memory_effects 0 false (push_inst 5) Cpu.new Emulator.memory_new false 1). reflexivity.
Defined.


(** Witness for [run_preserves_pages]. *)
Lemma run_preserves_pages_witness :
  exists e',
    Emulator.run Emulator.next_inst (Cpu.process 0 false) 3 (Emulator.mk Cpu.new hlt_memory) = Some (ROk e') /\
    Memory.pages (Emulator.mem e') = Memory.pages (Emulator.mem (Emulator.mk Cpu.new hlt_memory)).
Proof.
  eexists. split; [vm_compute; reflexivity|].
  eapply (run_preserves_pages Emulator.next_inst 0 false 3 (Emulator.mk Cpu.new hlt_memory)).
  vm_compute. reflexivity.
Defined.

(** Witness for [rdclk_roundtrip]. *)
Lemma rdclk_roundtrip_witness :
  exists c', Cpu.process 0 false (Instruction.mk 0 0 10 5 6 None) (Cpu.mk registers_default 0 0 (2 ^ 40 + 5))
      Emulator.memory_new false 1 = ROk (c', Emulator.memory_new, false, 1) /\
    field (Cpu.gp c') (Z.to_nat 5) * 2 ^ 32 + field (Cpu.gp c') (Z.to_nat 6) = 2 ^ 40 + 5 /\
    Cpu.pc c' = pc_next (Cpu.mk registers_default 0 0 (2 ^ 40 + 5)) (Instruction.mk 0 0 10 5 6 None).
Proof.
  apply (rdclk_roundtrip 0 false (Cpu.mk registers_default 0 0 (2 ^ 40 + 5)) Emulator.memory_new false 1 0 5 6 None);
    cbn; lia || reflexivity.
Defined.

(** Witness for [set_reg_get_reg]. *)
Lemma set_reg_get_reg_witness :
  (1 <= 5 < 32 -> exists r', set_reg registers_default 5 7 = ROk r' /\ get_reg r' 5 = ROk 7 /\
     forall y, 0 <= y -> y <> 5 -> get_reg r' y = get_reg registers_default y) /\
  (32 <= 5 -> set_reg registers_default 5 7 = RErr (InvalidReg 5) /\
     get_reg registers_default 5 = RErr (InvalidReg 5)).
Proof. apply (set_reg_get_reg registers_default 5 7). reflexivity. Defined.

(** Witness for [division_panics]. *)
Lemma division_panics_witness :
  (forall f, Cpu.binop 11 = Some f -> (f 7 0 = RPanic <-> 7 <> 0 /\ 0 = 0)) /\
  (forall f, Cpu.binop 12 = Some f -> (f 7 0 = RPanic <-> 7 <> 0 /\ 0 = 0)) /\
  (forall f, Cpu.binop 13 = Some f -> (f 7 0 = RPanic <-> 0 = 0)) /\
  (forall f, Cpu.binop 14 = Some f -> (f 7 0 = RPanic <-> 0 = 0 \/ (7 = 2 ^ 31 /\ 0 = MASK32))) /\
  (forall f, Cpu.binop 12 = Some f -> f (2 ^ 31) MASK32 = ROk (2 ^ 31)).
Proof. apply (division_panics 7 0); lia. Defined.

(** Witness for [mmu_memwrite_ignores_protection]. *)
Lemma mmu_memwrite_ignores_protection_witness :
  match Mmu.memwrite Mmu.new 16 [1; 2; 3] with
  | ROk mmu' =>
      Mmu.pages mmu' = Mmu.pages Mmu.new /\
      Mmu.memcpy false mmu' 16 [0; 0; 0] = ROk [1; 2; 3] /\
      Mmu.read U8 16 mmu' = RErr (PageFault READ) /\
      (forall v, Mmu.write U8 16 v mmu' = RErr (PageFault WRITE))
  | _ => False
  end.
Proof.
  apply (mmu_memwrite_ignores_protection false 16 [1; 2; 3] [0; 0; 0]);
    [unfold BITS_MAX; lia | cbn; lia | reflexivity].
Defined.

(** Witness for [run_hlt_stops]. *)
Lemma run_hlt_stops_witness :
  Emulator.run Emulator.next_inst (Cpu.process 0 false) 1 (Emulator.mk Cpu.new hlt_memory) =
  Some (ROk (Emulator.mk Cpu.new hlt_memory)).
Proof.
  apply (run_hlt_stops Emulator.next_inst 0 false 0 (Emulator.mk Cpu.new hlt_memory) 0 0 0).
  - vm_compute. reflexivity.
  - reflexivity.
Defined.

(** Witness for [typed_access_range_errors]: a 4-byte access at
    [0xFFFFFFFC] on both memories. *)
Lemma typed_access_range_errors_witness :
  (AtomicMemory.write U32 0xFFFFFFFC 7 (fun _ => 0) = RErr Overflow <->
     BITS_MAX < 0xFFFFFFFC + size_of U32 - 1) /\
  (AtomicMemory.read U32 0xFFFFFFFC (fun _ => 0) = RErr Overflow <->
     BITS_MAX < 0xFFFFFFFC + size_of U32 - 1) /\
  (forall e, AtomicMemory.write U32 0xFFFFFFFC 7 (fun _ => 0) = RErr e -> e = Overflow) /\
  (forall e, AtomicMemory.read U32 0xFFFFFFFC (fun _ => 0) = RErr e -> e = Overflow) /\
  (AtomicMemory.write U32 0xFFFFFFFC 7 (fun _ => 0) <> RPanic /\
   AtomicMemory.read U32 0xFFFFFFFC (fun _ => 0) <> RPanic) /\
  (Memory.write U32 0xFFFFFFFC 7 Emulator.memory_new = RErr (InvalidAddr (size_of U32) 0xFFFFFFFC) <->
     BITS_MAX < 0xFFFFFFFC + size_of U32) /\
  (Memory.read U32 0xFFFFFFFC Emulator.memory_new = RErr (InvalidAddr (size_of U32) 0xFFFFFFFC) <->
     BITS_MAX < 0xFFFFFFFC + size_of U32) /\
  (Memory.write U32 0xFFFFFFFC 7 Emulator.memory_new <> RErr (Shared Overflow) /\
   Memory.read U32 0xFFFFFFFC Emulator.memory_new <> RErr (Shared Overflow)).
Proof. apply (typed_access_range_errors U32 0xFFFFFFFC 7 (fun _ => 0) Emulator.memory_new). lia. Defined.
